(** * Insert destinations of the storage layer (storage/InsertDestination.hpp)

    A shallow embedding of the three insert-destination strategies
    (AlwaysCreateBlockInsertDestination, BlockPoolInsertDestination,
    PartitionAwareInsertDestination) and of the pipeline notification of
    their common base class, followed by the properties of the write path
    that are stated about them.

    Conventions of the embedding.
    - A member function that can end the process (LOG(FATAL), CHECK) is a
      computation in the [Exec] monad: it either returns a value with the
      next world, or aborts with the diagnostic.
    - Objects outside this header (message bus, storage manager, thread-id
      map, protobuf code) are members of the [Collaborators] interface; the
      world keeps their states and the trace of the calls made to them.
    - An access outside a vector (undefined behaviour in C++) is [None].
    - A member function runs as one step: its SpinMutexLock is held for the
      whole critical section, so the lock itself is not represented.
    - A loop whose number of rounds the code does not bound is given a
      number of rounds to run; its result is [None] when they are used up
      before the loop ends. *)

From stdpp Require Import base option list gmap strings.
From stdpp Require Import sorting.
From Stdlib Require Import ZArith.

(** ** Typedefs (catalog/CatalogTypedefs.hpp, storage/StorageBlockInfo.hpp) *)

Definition block_id := N.          (* std::uint64_t *)
Definition relation_id := Z.       (* int *)
Definition attribute_id := Z.      (* int *)
Definition tuple_id := Z.          (* int *)
Definition partition_id := nat.    (* std::size_t, used as a vector index *)
Definition thread_id := nat.

(** ** The message bus vocabulary (tmb) *)

Module tmb.

Definition client_id := N.         (* unsigned int *)
Definition message_type_id := N.

(** tmb::TaggedMessage(msg, bytes, message_type): the constructor copies
    [bytes] bytes from [msg] and attaches the tag. *)
Record TaggedMessage := {
  message : list Byte.byte;
  message_bytes : nat;
  message_type : message_type_id;
}.

(** Modelled from the spec: tmb::MessageBus::SendStatus is not under src/;
    the spec gives the result of a send as `{OK, ...}`. *)
Inductive SendStatus :=
| kOK
| kNotOK (code : nat).

#[global] Instance SendStatus_eq_dec : EqDecision SendStatus.
Proof. solve_decision. Defined.

End tmb.

(** ** The protocol buffer record (query_execution/QueryExecutionMessages.pb.h) *)

Module serialization.

(** The message has the five fields the setters of sendBlockFilledMessage
    name. *)
Record DataPipelineMessage := {
  operator_index : N;
  block_id : N;
  relation_id : Z;
  query_id : N;
  partition_id : nat;
}.

End serialization.

(** ** How a computation ends *)

Inductive Fatal :=
| LogFatal (diagnostic : string)     (* LOG(FATAL) << diagnostic *)
| CheckFailed (condition : string).  (* CHECK(condition) *)
Arguments LogFatal diagnostic%_string.
Arguments CheckFailed condition%_string.

Inductive Outcome (W A : Type) :=
| Returned (a : A) (w : W)
| Aborted (f : Fatal) (w : W).
Arguments Returned {W A} a w.
Arguments Aborted {W A} f w.

(** The world a computation ends in, whether it returned or aborted. *)
Definition final_world {W A} (o : Outcome W A) : W :=
  match o with
  | Returned _ w => w
  | Aborted _ w => w
  end.

Definition Exec (W A : Type) : Type := W → Outcome W A.

Definition ret {W A} (a : A) : Exec W A := λ w, Returned a w.

Definition bind {W A B} (m : Exec W A) (k : A → Exec W B) : Exec W B :=
  λ w, match m w with
       | Returned a w' => k a w'
       | Aborted f w' => Aborted f w'
       end.

Definition fatal {W A} (f : Fatal) : Exec W A := λ w, Aborted f w.

Declare Scope exec_scope.
Delimit Scope exec_scope with exec.
Notation "x <~ m ;; k" := (bind m (λ x, k))
  (at level 100, m at next level, right associativity) : exec_scope.
Notation "m ;;; k" := (bind m (λ _, k))
  (at level 100, right associativity) : exec_scope.

(** ** Catalog objects *)

(** CatalogRelationSchema, as far as this header reads it: getID(). *)
Record CatalogRelationSchema := {
  getID : relation_id;
}.

(** ** External collaborators

    The types and operations this header consumes and that are declared
    elsewhere: the typed values of tuples, block references and the storage
    manager, the process-wide thread-id map, the message bus, and the
    generated protocol buffer code. *)

Class Collaborators := {
  TypedValue : Type;
  StorageBlockLayout : Type;
  (* storage/StorageBlock.hpp, storage/StorageManager.hpp *)
  MutableBlockReference : Type;
  StorageBlock_getID : MutableBlockReference → block_id;   (* block->getID() *)
  StorageManager : Type;
  createBlock :
    StorageManager → CatalogRelationSchema → StorageBlockLayout →
    MutableBlockReference * StorageManager;
  getBlockMutable :
    StorageManager → block_id → MutableBlockReference * StorageManager;
  (* threading/ThreadIDBasedMap.hpp: getValue() answers for the calling
     thread *)
  ClientIDMap : Type;
  getValue : ClientIDMap → thread_id → tmb.client_id;
  (* tmb::MessageBus *)
  MessageBus : Type;
  Send :
    MessageBus → tmb.client_id → tmb.client_id → tmb.TaggedMessage →
    tmb.SendStatus * MessageBus;
  (* query_execution/QueryExecutionTypedefs.hpp *)
  kDataPipelineMessage : tmb.message_type_id;
  (* generated protobuf code: the size of the wire form, and the wire form
     written into a buffer of the given size (false when it cannot) *)
  ByteSize : serialization.DataPipelineMessage → nat;
  SerializeToArray :
    serialization.DataPipelineMessage → nat → option (list Byte.byte);
}.

(** ** The world a destination runs in *)

Section World.
Context `{!Collaborators}.

(** A call made to a collaborator. *)
Inductive Event :=
| EvSend (sender receiver : tmb.client_id) (msg : tmb.TaggedMessage)
         (status : tmb.SendStatus)
| EvCreateBlock (relation : CatalogRelationSchema)
| EvGetBlockMutable (id : block_id).

Record World := {
  bus : MessageBus;               (* the object behind bus_ *)
  storage : StorageManager;       (* the object behind storage_manager_ *)
  this_thread : thread_id;        (* the thread that executes the call *)
  trace : list Event;             (* calls made so far, oldest first *)
}.

Definition is_send (e : Event) : bool :=
  match e with EvSend _ _ _ _ => true | _ => false end.

Definition is_creation (e : Event) : bool :=
  match e with EvCreateBlock _ => true | _ => false end.

(** The send events of a trace, oldest first. *)
Definition sends (tr : list Event) : list Event := List.filter is_send tr.

(** The block creations of a trace, oldest first. *)
Definition creations (tr : list Event) : list Event :=
  List.filter is_creation tr.

End World.

(** ** QueryExecutionUtil *)

Module QueryExecutionUtil.
Section QueryExecutionUtil.
Context `{!Collaborators}.

(** Modelled from the spec: QueryExecutionUtil::SendTMBMessage
    (query_execution/QueryExecutionUtil.hpp is not under src/), the message
    bus operation `send(sender, receiver, tagged_message) -> {OK, ...}`:
    one call of the bus, whose status is handed back. *)
Definition SendTMBMessage (sender receiver : tmb.client_id)
    (tagged_message : tmb.TaggedMessage) (w : World)
    : tmb.SendStatus * World :=
  let '(send_status, bus') := Send (bus w) sender receiver tagged_message in
  (send_status,
   {| bus := bus'; storage := storage w; this_thread := this_thread w;
      trace := trace w ++ [EvSend sender receiver tagged_message send_status] |}).

End QueryExecutionUtil.
End QueryExecutionUtil.

(** ** class InsertDestination *)

Module InsertDestination.
Section InsertDestination.
Context `{!Collaborators}.

Inductive InsertDestinationType :=
| kAlwaysCreateBlockInsertDestination
| kBlockPoolInsertDestination
| kPartitionAwareInsertDestination.

(** The data members of the base class. [bus_] and [storage_manager_] point
    to the bus and the storage manager of the world, and are taken to be
    non-null (the DCHECK on [bus_] is a debug-build assertion); [mutex_] is
    not represented. *)
Record t := {
  insert_dest_type_ : InsertDestinationType;
  thread_id_map_ : ClientIDMap;
  relation_ : CatalogRelationSchema;
  layout_ : StorageBlockLayout;
  relational_op_index_ : N;
  query_id_ : N;
  scheduler_client_id_ : tmb.client_id;
}.

Definition getRelation (d : t) : CatalogRelationSchema := relation_ d.

Definition getInsertDestinationType (d : t) : InsertDestinationType :=
  insert_dest_type_ d.

Definition getQueryID (d : t) : N := query_id_ d.

(** The record the five setters of sendBlockFilledMessage build. *)
Definition DataPipelineMessage_of (d : t) (id : block_id)
    (part_id : partition_id) : serialization.DataPipelineMessage :=
  {| serialization.operator_index := relational_op_index_ d;
     serialization.block_id := id;
     serialization.relation_id := getID (relation_ d);
     serialization.query_id := query_id_ d;
     serialization.partition_id := part_id |}.

(** void sendBlockFilledMessage(const block_id id,
                                const partition_id part_id = 0) const:
    the record is serialised into a buffer of ByteSize() bytes (CHECK), the
    bytes are wrapped into a message tagged kDataPipelineMessage, the
    message is sent from the client id of the executing thread to the
    scheduler, and the status of the send is CHECKed. *)
Definition sendBlockFilledMessage (d : t) (id : block_id)
    (part_id : partition_id) : Exec World unit :=
  λ w,
  let proto := DataPipelineMessage_of d id part_id in
  let proto_length := ByteSize proto in
  match SerializeToArray proto proto_length with
  | None =>
      Aborted (CheckFailed "proto.SerializeToArray(proto_bytes, proto_length)") w
  | Some proto_bytes =>
      let tagged_message :=
        {| tmb.message := proto_bytes;
           tmb.message_bytes := proto_length;
           tmb.message_type := kDataPipelineMessage |} in
      let '(send_status, w') :=
        QueryExecutionUtil.SendTMBMessage
          (getValue (thread_id_map_ d) (this_thread w))
          (scheduler_client_id_ d)
          tagged_message w in
      if decide (send_status = tmb.kOK)
      then Returned () w'
      else Aborted (CheckFailed "send_status == tmb::MessageBus::SendStatus::kOK") w'
  end.

(** The call with the default argument [part_id = 0]. *)
Definition sendBlockFilledMessage_default (d : t) (id : block_id)
    : Exec World unit :=
  sendBlockFilledMessage d id 0.

End InsertDestination.
End InsertDestination.

(** ** Tuples, value accessors and tuple-id sequences *)

Section Containers.
Context `{!Collaborators}.

(** types/containers/Tuple.hpp: a vector of typed values read by attribute
    id. *)
Record Tuple := {
  attribute_values_ : list TypedValue;
}.

Definition getAttributeValue (tuple : Tuple) (attr : attribute_id)
    : option TypedValue :=
  if decide (attr < 0)%Z then None
  else attribute_values_ tuple !! Z.to_nat attr.

(** Modelled from the spec: ValueAccessor (storage/ValueAccessor.hpp is not
    under src/), "a forward cursor over a set of rows with operations:
    advance to next row; get current position; read an attribute by id".
    The cursor stands on [current] (nothing before the first [next()]);
    [pending] are the rows still ahead, each with its position. *)
Record ValueAccessor := {
  current : option (tuple_id * Tuple);
  pending : list (tuple_id * Tuple);
}.

(** accessor->next(): false and no move once the rows are exhausted. *)
Definition next (accessor : ValueAccessor) : bool * ValueAccessor :=
  match pending accessor with
  | [] => (false, {| current := None; pending := [] |})
  | row :: rest => (true, {| current := Some row; pending := rest |})
  end.

Definition getCurrentPosition (accessor : ValueAccessor) : option tuple_id :=
  fst <$> current accessor.

Definition getTypedValue (accessor : ValueAccessor) (attr : attribute_id)
    : option TypedValue :=
  row ← current accessor; getAttributeValue (snd row) attr.

End Containers.

(** Modelled from the spec: TupleIdSequence (storage/TupleIdSequence.hpp is
    not under src/), "one bitmap per partition over the accessor's rows":
    the set of the positions whose bit is on. *)
Module TupleIdSequence.

Definition t := gset tuple_id.

(** sequence->set(position) *)
Definition set (position : tuple_id) (sequence : t) : t :=
  {[ position ]} ∪ sequence.

End TupleIdSequence.

(** ** class AlwaysCreateBlockInsertDestination *)

Module AlwaysCreateBlockInsertDestination.
Section AlwaysCreateBlockInsertDestination.
Context `{!Collaborators}.

Record t := {
  base : InsertDestination.t;
  returned_block_ids_ : list block_id;
}.

(** The constructor; [thread_id_map] is the process-wide instance the base
    class binds its reference to. *)
Definition new (thread_id_map : ClientIDMap) (relation : CatalogRelationSchema)
    (layout : StorageBlockLayout) (relational_op_index query_id : N)
    (scheduler_client_id : tmb.client_id) : t :=
  {| base :=
       {| InsertDestination.insert_dest_type_ :=
            InsertDestination.kAlwaysCreateBlockInsertDestination;
          InsertDestination.thread_id_map_ := thread_id_map;
          InsertDestination.relation_ := relation;
          InsertDestination.layout_ := layout;
          InsertDestination.relational_op_index_ := relational_op_index;
          InsertDestination.query_id_ := query_id;
          InsertDestination.scheduler_client_id_ := scheduler_client_id |};
     returned_block_ids_ := [] |}.

Definition bulkInsertTuplesFromValueAccessors (d : t)
    (accessor_attribute_map : list (ValueAccessor * list attribute_id))
    (always_mark_full : bool) : Exec World t :=
  fatal (LogFatal
    "bulkInsertTuplesFromValueAccessors is not implemented for AlwaysCreateBlockInsertDestination").

(** The body is empty: both output vectors and the destination are left as
    they are. *)
Definition getPartiallyFilledBlocks (d : t)
    (partial_blocks : list MutableBlockReference)
    (part_ids : list partition_id)
    : t * list MutableBlockReference * list partition_id :=
  (d, partial_blocks, part_ids).

Definition getTouchedBlocksInternal (d : t) : list block_id :=
  returned_block_ids_ d.

(** InsertDestination::getTouchedBlocks, resolved for this class. *)
Definition getTouchedBlocks (d : t) : list block_id :=
  getTouchedBlocksInternal d.

(** Modelled from the spec: AlwaysCreateBlockInsertDestination::returnBlock
    (storage/InsertDestination.cpp is not under src/): "returnBlock
    unconditionally marks the block as done and appends its id to
    returned_block_ids, regardless of the full flag". This is the change of
    the destination; the notification sent for the block is
    [InsertDestination.sendBlockFilledMessage]. *)
Definition returnBlock (d : t) (block : MutableBlockReference) (full : bool)
    : t :=
  {| base := base d;
     returned_block_ids_ := returned_block_ids_ d ++ [StorageBlock_getID block] |}.

(** The blocks [returns] handed back one after the other, in the order of
    the calls of returnBlock. *)
Definition return_all (d : t) (returns : list (MutableBlockReference * bool))
    : t :=
  foldl (λ d r, returnBlock d r.1 r.2) d returns.

End AlwaysCreateBlockInsertDestination.
End AlwaysCreateBlockInsertDestination.

(** ** class BlockPoolInsertDestination *)

(** vector::back() followed by vector::pop_back(): the last element and the
    vector without it; nothing for an empty vector. *)
Definition pop_back {A} (v : list A) : option (list A * A) :=
  x ← last v; Some (take (pred (length v)) v, x).

Module BlockPoolInsertDestination.
Section BlockPoolInsertDestination.
Context `{!Collaborators}.

Record t := {
  base : InsertDestination.t;
  (* A vector of references to blocks which are loaded in memory. *)
  available_block_refs_ : list MutableBlockReference;
  (* A vector of blocks from the relation that are not loaded in memory yet. *)
  available_block_ids_ : list block_id;
  (* A vector of fully filled blocks. *)
  done_block_ids_ : list block_id;
}.

Definition base_of (thread_id_map : ClientIDMap)
    (relation : CatalogRelationSchema) (layout : StorageBlockLayout)
    (relational_op_index query_id : N) (scheduler_client_id : tmb.client_id)
    : InsertDestination.t :=
  {| InsertDestination.insert_dest_type_ :=
       InsertDestination.kBlockPoolInsertDestination;
     InsertDestination.thread_id_map_ := thread_id_map;
     InsertDestination.relation_ := relation;
     InsertDestination.layout_ := layout;
     InsertDestination.relational_op_index_ := relational_op_index;
     InsertDestination.query_id_ := query_id;
     InsertDestination.scheduler_client_id_ := scheduler_client_id |}.

(** The first constructor: the three vectors start empty. *)
Definition new (thread_id_map : ClientIDMap) (relation : CatalogRelationSchema)
    (layout : StorageBlockLayout) (relational_op_index query_id : N)
    (scheduler_client_id : tmb.client_id) : t :=
  {| base := base_of thread_id_map relation layout relational_op_index
                     query_id scheduler_client_id;
     available_block_refs_ := [];
     available_block_ids_ := [];
     done_block_ids_ := [] |}.

(** The second constructor: available_block_ids_(std::move(blocks)). *)
Definition new_with_blocks (thread_id_map : ClientIDMap)
    (relation : CatalogRelationSchema) (layout : StorageBlockLayout)
    (blocks : list block_id) (relational_op_index query_id : N)
    (scheduler_client_id : tmb.client_id) : t :=
  {| base := base_of thread_id_map relation layout relational_op_index
                     query_id scheduler_client_id;
     available_block_refs_ := [];
     available_block_ids_ := blocks;
     done_block_ids_ := [] |}.

(** Modelled from the spec: BlockPoolInsertDestination::createNewBlock
    (storage/InsertDestination.cpp is not under src/): "createNewBlock
    delegates to storage_manager.createBlock(relation, layout), which
    attaches the new block to the relation and returns a writable
    reference". *)
Definition createNewBlock (d : t) : Exec World MutableBlockReference :=
  λ w,
  let relation := InsertDestination.relation_ (base d) in
  let '(block, storage') :=
    createBlock (storage w) relation (InsertDestination.layout_ (base d)) in
  Returned block
    {| bus := bus w; storage := storage'; this_thread := this_thread w;
       trace := trace w ++ [EvCreateBlock relation] |}.

(** Modelled from the spec: the call storage_manager.getBlockMutable(id) of
    the pool, "pin and return a writable reference to an existing block". *)
Definition loadBlock (id : block_id) : Exec World MutableBlockReference :=
  λ w,
  let '(block, storage') := getBlockMutable (storage w) id in
  Returned block
    {| bus := bus w; storage := storage'; this_thread := this_thread w;
       trace := trace w ++ [EvGetBlockMutable id] |}.

(** Modelled from the spec: BlockPoolInsertDestination::getBlockForInsertion
    (storage/InsertDestination.cpp is not under src/): "pop from
    available_refs if any; else if available_ids is non-empty, load the last
    one through the storage manager and return the resulting reference;
    else create a new block". *)
Definition getBlockForInsertion (d : t)
    : Exec World (MutableBlockReference * t) :=
  match pop_back (available_block_refs_ d) with
  | Some (refs, retval) =>
      ret (retval,
           {| base := base d; available_block_refs_ := refs;
              available_block_ids_ := available_block_ids_ d;
              done_block_ids_ := done_block_ids_ d |})
  | None =>
      match pop_back (available_block_ids_ d) with
      | Some (ids, id) =>
          (retval <~ loadBlock id ;;
           ret (retval,
                {| base := base d;
                   available_block_refs_ := available_block_refs_ d;
                   available_block_ids_ := ids;
                   done_block_ids_ := done_block_ids_ d |}))%exec
      | None =>
          (retval <~ createNewBlock d ;; ret (retval, d))%exec
      end
  end.

(** Modelled from the spec: BlockPoolInsertDestination::returnBlock
    (storage/InsertDestination.cpp is not under src/): "returnBlock(ref,
    full) under lock: if full, push the block's id into done_ids and drop
    the reference (releasing the pin); else push the reference back into
    available_refs. After unlock, if full, emit a pipeline message". The
    message is sendBlockFilledMessage with its default partition id. *)
Definition returnBlock (d : t) (block : MutableBlockReference) (full : bool)
    : Exec World t :=
  if full
  then
    (InsertDestination.sendBlockFilledMessage_default
       (base d) (StorageBlock_getID block) ;;;
     ret {| base := base d;
            available_block_refs_ := available_block_refs_ d;
            available_block_ids_ := available_block_ids_ d;
            done_block_ids_ := done_block_ids_ d ++ [StorageBlock_getID block] |})%exec
  else
    ret {| base := base d;
           available_block_refs_ := available_block_refs_ d ++ [block];
           available_block_ids_ := available_block_ids_ d;
           done_block_ids_ := done_block_ids_ d |}.

(** [n] calls of getBlockForInsertion in a row, none of the blocks handed
    back in between: the references in the order they were returned. *)
Fixpoint acquire (n : nat) (d : t)
    : Exec World (list MutableBlockReference * t) :=
  match n with
  | 0 => ret ([], d)
  | S n' =>
      (first <~ getBlockForInsertion d ;;
       rest <~ acquire n' first.2 ;;
       ret (first.1 :: rest.1, rest.2))%exec
  end.

(** The references the storage manager hands out, and the manager it
    becomes, when it is asked for the blocks [ids] one after the other. *)
Fixpoint load_all (ids : list block_id) (sm : StorageManager)
    : list MutableBlockReference * StorageManager :=
  match ids with
  | [] => ([], sm)
  | id :: rest =>
      let '(block, sm') := getBlockMutable sm id in
      let '(blocks, sm'') := load_all rest sm' in
      (block :: blocks, sm'')
  end.

End BlockPoolInsertDestination.
End BlockPoolInsertDestination.

(** ** class PartitionAwareInsertDestination *)

Module PartitionSchemeHeader.
Section PartitionSchemeHeader.
Context `{!Collaborators}.

(** catalog/PartitionSchemeHeader.hpp, as far as this header calls it: the
    partitioning attribute ids, the number of partitions, and the virtual
    getPartitionId over the values of those attributes. *)
Record t := {
  getPartitionAttributeIds : list attribute_id;
  getNumPartitions : nat;
  getPartitionId : list TypedValue → partition_id;
}.

End PartitionSchemeHeader.
End PartitionSchemeHeader.

Section Loops.
Context `{!Collaborators}.

(** while (accessor->next()) { body }: [body] runs once on each row ahead
    of the cursor, in order, with the cursor standing on that row. *)
Fixpoint while_next {S} (body : ValueAccessor → S → option S)
    (rows : list (tuple_id * Tuple)) (s : S) : option S :=
  match rows with
  | [] => Some s
  | row :: rest =>
      s' ← body {| current := Some row; pending := rest |} s;
      while_next body rest s'
  end.

(** partition_membership->at(part_id)->set(position), the vector indexed
    without a bounds check. *)
Definition set_member (partition_membership : list TupleIdSequence.t)
    (part_id : partition_id) (position : tuple_id)
    : option (list TupleIdSequence.t) :=
  sequence ← partition_membership !! part_id;
  Some (<[part_id := TupleIdSequence.set position sequence]> partition_membership).

End Loops.

Module PartitionAwareInsertDestination.
Section PartitionAwareInsertDestination.
Context `{!Collaborators}.

Record t := {
  base : InsertDestination.t;
  partition_scheme_header_ : PartitionSchemeHeader.t;
  (* A vector of available block references for each partition. *)
  available_block_refs_ : list (list MutableBlockReference);
  (* A vector of available block ids for each partition. *)
  available_block_ids_ : list (list block_id);
  (* A vector of done block ids for each partition. *)
  done_block_ids_ : list (list block_id);
  input_partition_id_ : partition_id;
}.

(** Modelled from the spec: the constructor (storage/InsertDestination.cpp
    is not under src/): "Constructed with an owned PartitionSchemeHeader and
    an optional sequence partitions[P] of pre-existing block ids per
    partition. Initialises per-partition vectors and an array of P
    mutexes". The header gives the member initializer
    [input_partition_id_ = 0u]. *)
Definition new (partition_scheme_header : PartitionSchemeHeader.t)
    (thread_id_map : ClientIDMap) (relation : CatalogRelationSchema)
    (layout : StorageBlockLayout) (partitions : list (list block_id))
    (relational_op_index query_id : N) (scheduler_client_id : tmb.client_id)
    : t :=
  {| base :=
       {| InsertDestination.insert_dest_type_ :=
            InsertDestination.kPartitionAwareInsertDestination;
          InsertDestination.thread_id_map_ := thread_id_map;
          InsertDestination.relation_ := relation;
          InsertDestination.layout_ := layout;
          InsertDestination.relational_op_index_ := relational_op_index;
          InsertDestination.query_id_ := query_id;
          InsertDestination.scheduler_client_id_ := scheduler_client_id |};
     partition_scheme_header_ := partition_scheme_header;
     available_block_refs_ :=
       replicate (PartitionSchemeHeader.getNumPartitions partition_scheme_header) [];
     available_block_ids_ := partitions;
     done_block_ids_ :=
       replicate (PartitionSchemeHeader.getNumPartitions partition_scheme_header) [];
     input_partition_id_ := 0 |}.

Definition with_available_block_refs (d : t)
    (refs : list (list MutableBlockReference)) : t :=
  {| base := base d;
     partition_scheme_header_ := partition_scheme_header_ d;
     available_block_refs_ := refs;
     available_block_ids_ := available_block_ids_ d;
     done_block_ids_ := done_block_ids_ d;
     input_partition_id_ := input_partition_id_ d |}.

Definition addBlockToPool (d : t) (bid : block_id) (part_id : partition_id)
    : option t :=
  ids ← available_block_ids_ d !! part_id;
  Some {| base := base d;
          partition_scheme_header_ := partition_scheme_header_ d;
          available_block_refs_ := available_block_refs_ d;
          available_block_ids_ :=
            <[part_id := ids ++ [bid]]> (available_block_ids_ d);
          done_block_ids_ := done_block_ids_ d;
          input_partition_id_ := input_partition_id_ d |}.

Definition setInputPartitionId (d : t) (input_partition_id : partition_id)
    : t :=
  {| base := base d;
     partition_scheme_header_ := partition_scheme_header_ d;
     available_block_refs_ := available_block_refs_ d;
     available_block_ids_ := available_block_ids_ d;
     done_block_ids_ := done_block_ids_ d;
     input_partition_id_ := input_partition_id |}.

Definition bulkInsertTuplesFromValueAccessors (d : t)
    (accessor_attribute_map : list (ValueAccessor * list attribute_id))
    (always_mark_full : bool) : Exec World t :=
  fatal (LogFatal
    "bulkInsertTuplesFromValueAccessors is not implemented for PartitionAwareInsertDestination").

Definition getBlockForInsertion (d : t)
    : Exec World (MutableBlockReference * t) :=
  fatal (LogFatal
    "PartitionAwareInsertDestination::getBlockForInsertion needs a partition id as an argument.").

(** The loop of getPartiallyFilledBlocksInPartition over the references of
    one partition, from index [i = 0] upwards: each reference is moved to
    the back of [partial_blocks] and [part_id] pushed to the back of
    [part_ids]. *)
Fixpoint move_refs (refs : list MutableBlockReference) (part_id : partition_id)
    (partial_blocks : list MutableBlockReference)
    (part_ids : list partition_id)
    : list MutableBlockReference * list partition_id :=
  match refs with
  | [] => (partial_blocks, part_ids)
  | ref :: rest =>
      move_refs rest part_id (partial_blocks ++ [ref]) (part_ids ++ [part_id])
  end.

Definition getPartiallyFilledBlocksInPartition (d : t)
    (partial_blocks : list MutableBlockReference)
    (part_ids : list partition_id) (part_id : partition_id)
    : option (t * list MutableBlockReference * list partition_id) :=
  refs ← available_block_refs_ d !! part_id;
  let '(partial_blocks', part_ids') :=
    move_refs refs part_id partial_blocks part_ids in
  (* available_block_refs_[part_id].clear() *)
  Some (with_available_block_refs d (<[part_id := []]> (available_block_refs_ d)),
        partial_blocks', part_ids').

(** for (part_id = first; part_id < first + count; ++part_id) *)
Fixpoint for_each_partition (count : nat) (part_id : partition_id) (d : t)
    (partial_blocks : list MutableBlockReference)
    (part_ids : list partition_id)
    : option (t * list MutableBlockReference * list partition_id) :=
  match count with
  | 0 => Some (d, partial_blocks, part_ids)
  | S count' =>
      '(d', partial_blocks', part_ids') ←
        getPartiallyFilledBlocksInPartition d partial_blocks part_ids part_id;
      for_each_partition count' (S part_id) d' partial_blocks' part_ids'
  end.

Definition getPartiallyFilledBlocks (d : t)
    (partial_blocks : list MutableBlockReference)
    (part_ids : list partition_id)
    : option (t * list MutableBlockReference * list partition_id) :=
  for_each_partition
    (PartitionSchemeHeader.getNumPartitions (partition_scheme_header_ d)) 0
                     d partial_blocks part_ids.

Definition getPartitionId (d : t) (tuple : Tuple) : option partition_id :=
  let partition_attr_ids :=
    PartitionSchemeHeader.getPartitionAttributeIds (partition_scheme_header_ d) in
  values ← mapM (getAttributeValue tuple) partition_attr_ids;
  Some (match values with
        | [] => input_partition_id_ d
        | _ => PartitionSchemeHeader.getPartitionId (partition_scheme_header_ d) values
        end).

Definition setPartitionMembership (d : t)
    (partition_membership : list TupleIdSequence.t) (accessor : ValueAccessor)
    : option (list TupleIdSequence.t) :=
  let partition_attr_ids :=
    PartitionSchemeHeader.getPartitionAttributeIds (partition_scheme_header_ d) in
  match partition_attr_ids with
  | [] =>
      while_next
        (λ accessor partition_membership,
           position ← getCurrentPosition accessor;
           set_member partition_membership (input_partition_id_ d) position)
        (pending accessor) partition_membership
  | _ =>
      while_next
        (λ accessor partition_membership,
           values ← mapM (getTypedValue accessor) partition_attr_ids;
           position ← getCurrentPosition accessor;
           set_member partition_membership
             (PartitionSchemeHeader.getPartitionId (partition_scheme_header_ d) values)
             position)
        (pending accessor) partition_membership
  end.

(** Row [position] is in the membership set of partition [part_id]. *)
Definition member (partition_membership : list TupleIdSequence.t)
    (part_id : partition_id) (position : tuple_id) : Prop :=
  ∃ sequence,
    partition_membership !! part_id = Some sequence ∧ position ∈ sequence.

(** The rule of the specification for a bulk insert: every row goes to the
    membership set of the partition that getPartitionId gives for it. *)
Fixpoint classify (d : t) (rows : list (tuple_id * Tuple))
    (partition_membership : list TupleIdSequence.t)
    : option (list TupleIdSequence.t) :=
  match rows with
  | [] => Some partition_membership
  | row :: rest =>
      part_id ← getPartitionId d row.2;
      partition_membership' ← set_member partition_membership part_id row.1;
      classify d rest partition_membership'
  end.

(** The public members of the class in this header that change the
    destination, as calls. *)
Inductive Call :=
| CallAddBlockToPool (bid : block_id) (part_id : partition_id)
| CallSetInputPartitionId (input_partition_id : partition_id)
| CallGetPartiallyFilledBlocks (partial_blocks : list MutableBlockReference)
                               (part_ids : list partition_id).

Definition is_setInputPartitionId (c : Call) : bool :=
  match c with
  | CallSetInputPartitionId _ => true
  | _ => false
  end.

Definition call (d : t) (c : Call) : option t :=
  match c with
  | CallAddBlockToPool bid part_id => addBlockToPool d bid part_id
  | CallSetInputPartitionId input_partition_id =>
      Some (setInputPartitionId d input_partition_id)
  | CallGetPartiallyFilledBlocks partial_blocks part_ids =>
      (λ r, r.1.1) <$> getPartiallyFilledBlocks d partial_blocks part_ids
  end.

Fixpoint calls (d : t) (cs : list Call) : option t :=
  match cs with
  | [] => Some d
  | c :: rest => d' ← call d c; calls d' rest
  end.

End PartitionAwareInsertDestination.
End PartitionAwareInsertDestination.

(** ** InsertDestination::bulkInsertTuplesFromValueAccessors *)

Section BulkInsert.
Context `{!Collaborators}.

(** The tuples the accessors of a bulk insert still hold when they are read
    in lockstep: a tuple takes a row of every accessor, so there are as
    many as the accessor with the fewest rows ahead has rows. *)
Definition tuples_ahead
    (accessor_attribute_map : list (ValueAccessor * list attribute_id)) : nat :=
  match accessor_attribute_map with
  | [] => 0
  | first :: rest =>
      foldr (λ other ahead, Nat.min (length (pending other.1)) ahead)
            (length (pending first.1)) rest
  end.

(** An accessor moved [n] rows on. *)
Definition skip (n : nat) (accessor : ValueAccessor) : ValueAccessor :=
  {| current := match n with
                | 0 => current accessor
                | S m => pending accessor !! m
                end;
     pending := drop n (pending accessor) |}.

(** The accessors of a bulk insert moved [n] rows on, in lockstep. *)
Definition advance (n : nat)
    (accessor_attribute_map : list (ValueAccessor * list attribute_id))
    : list (ValueAccessor * list attribute_id) :=
  (λ entry, (skip n entry.1, entry.2)) <$> accessor_attribute_map.

(** The class of the object and its two pure virtual members (lines 206
    and 217 of the header). *)
Variable Dest : Type.
Variable getBlockForInsertion : Dest → Exec World (MutableBlockReference * Dest).
Variable returnBlock : Dest → MutableBlockReference → bool → Exec World Dest.

(** The append operation of a storage block for bulk inserts
    (storage/StorageBlock.hpp is not under src/), which the spec describes
    as returning "a count-inserted for bulk inserts": the number of tuples
    of the accessors that the block took, and the storage manager after the
    copy. *)
Variable StorageBlock_bulkInsert :
  StorageManager → MutableBlockReference →
  list (ValueAccessor * list attribute_id) → nat * StorageManager.

Definition copy_tuples (block : MutableBlockReference)
    (accessor_attribute_map : list (ValueAccessor * list attribute_id))
    : Exec World nat :=
  λ w,
  let '(copied, storage') :=
    StorageBlock_bulkInsert (storage w) block accessor_attribute_map in
  Returned copied
    {| bus := bus w; storage := storage'; this_thread := this_thread w;
       trace := trace w |}.

(** Modelled from the spec: InsertDestination::bulkInsertTuplesFromValueAccessors,
    the member of the base class (storage/InsertDestination.cpp is not under
    src/): the "variant that pulls distinct columns from distinct accessors
    advanced in lockstep" of bulkInsertTuples, which "streams all tuples
    from a value-accessor. Copies as many as fit; on saturation, returns
    the block and resumes with a new one. If always_mark_full is set, even
    a non-saturated block is marked full on return". While tuples are
    ahead, a round asks the strategy for a block, copies as many tuples as
    the block takes, and returns the block, marked full when tuples are
    left over or always_mark_full is set. With no tuple ahead no block is
    asked for. [fuel] bounds the number of rounds; the result is [None]
    when the rounds are used up with tuples still ahead. *)
Fixpoint InsertDestination_bulkInsertTuplesFromValueAccessors (fuel : nat)
    (this : Dest)
    (accessor_attribute_map : list (ValueAccessor * list attribute_id))
    (always_mark_full : bool) : Exec World (option Dest) :=
  if decide (tuples_ahead accessor_attribute_map = 0) then ret (Some this)
  else
    match fuel with
    | 0 => ret None
    | S fuel' =>
        (acquired <~ getBlockForInsertion this ;;
         copied <~ copy_tuples acquired.1 accessor_attribute_map ;;
         this' <~ returnBlock acquired.2 acquired.1
                    (always_mark_full
                     || (copied <? tuples_ahead accessor_attribute_map)) ;;
         InsertDestination_bulkInsertTuplesFromValueAccessors
           fuel' this' (advance copied accessor_attribute_map)
           always_mark_full)%exec
    end.

End BulkInsert.

(** ** Virtual dispatch over the three strategies *)

Section Dispatch.
Context `{!Collaborators}.

(** An object of one of the three concrete classes. *)
Inductive Destination :=
| AlwaysCreateBlock (d : AlwaysCreateBlockInsertDestination.t)
| BlockPool (d : BlockPoolInsertDestination.t)
| PartitionAware (d : PartitionAwareInsertDestination.t).

Definition getInsertDestinationType (dest : Destination)
    : InsertDestination.InsertDestinationType :=
  match dest with
  | AlwaysCreateBlock d =>
      InsertDestination.insert_dest_type_ (AlwaysCreateBlockInsertDestination.base d)
  | BlockPool d =>
      InsertDestination.insert_dest_type_ (BlockPoolInsertDestination.base d)
  | PartitionAware d =>
      InsertDestination.insert_dest_type_ (PartitionAwareInsertDestination.base d)
  end.

Variable StorageBlock_bulkInsert :
  StorageManager → MutableBlockReference →
  list (ValueAccessor * list attribute_id) → nat * StorageManager.

(** The virtual call destination->bulkInsertTuplesFromValueAccessors(...):
    AlwaysCreateBlockInsertDestination and PartitionAwareInsertDestination
    override the member; BlockPoolInsertDestination inherits the member of
    the base class, whose calls of getBlockForInsertion and returnBlock are
    those of BlockPoolInsertDestination. *)
Definition bulkInsertTuplesFromValueAccessors (fuel : nat) (dest : Destination)
    (accessor_attribute_map : list (ValueAccessor * list attribute_id))
    (always_mark_full : bool) : Exec World (option Destination) :=
  match dest with
  | AlwaysCreateBlock d =>
      (d' <~ AlwaysCreateBlockInsertDestination.bulkInsertTuplesFromValueAccessors
               d accessor_attribute_map always_mark_full ;;
       ret (Some (AlwaysCreateBlock d')))%exec
  | BlockPool d =>
      (d' <~ InsertDestination_bulkInsertTuplesFromValueAccessors
               BlockPoolInsertDestination.t
               BlockPoolInsertDestination.getBlockForInsertion
               BlockPoolInsertDestination.returnBlock
               StorageBlock_bulkInsert
               fuel d accessor_attribute_map always_mark_full ;;
       ret (BlockPool <$> d'))%exec
  | PartitionAware d =>
      (d' <~ PartitionAwareInsertDestination.bulkInsertTuplesFromValueAccessors
               d accessor_attribute_map always_mark_full ;;
       ret (Some (PartitionAware d')))%exec
  end.

End Dispatch.

(** ** A small instance of the collaborators

    Typed values are integers; a block reference is the id of its block; the
    storage manager keeps the ids it has pinned and numbers new blocks after
    them; the thread-id map is a finite map; the bus keeps the clients
    connected to it and the messages it took, and refuses a message for a
    receiver that is not connected. *)

Module Sample.

Record Bus := {
  connected : list tmb.client_id;
  delivered : list (tmb.client_id * tmb.TaggedMessage);
}.

Definition send (b : Bus) (sender receiver : tmb.client_id)
    (msg : tmb.TaggedMessage) : tmb.SendStatus * Bus :=
  if decide (receiver ∈ connected b)
  then (tmb.kOK,
        {| connected := connected b;
           delivered := delivered b ++ [(receiver, msg)] |})
  else (tmb.kNotOK 1, b).

Definition byte_of (n : N) : Byte.byte :=
  default Byte.x00 (Byte.of_N (n mod 256)).

(** A fixed-width wire form: one byte per field. *)
Definition wire (proto : serialization.DataPipelineMessage) : list Byte.byte :=
  [ byte_of (serialization.operator_index proto);
    byte_of (serialization.block_id proto);
    byte_of (Z.to_N (serialization.relation_id proto));
    byte_of (serialization.query_id proto);
    byte_of (N.of_nat (serialization.partition_id proto)) ].

#[local] Instance collaborators : Collaborators := {|
  TypedValue := Z;
  StorageBlockLayout := unit;
  MutableBlockReference := block_id;
  StorageBlock_getID := λ block, block;
  StorageManager := list block_id;
  createBlock := λ sm _ _,
    let id := N.of_nat (length sm) in (id, sm ++ [id]);
  getBlockMutable := λ sm id, (id, sm ++ [id]);
  ClientIDMap := gmap thread_id tmb.client_id;
  getValue := λ m thread, default 0%N (m !! thread);
  MessageBus := Bus;
  Send := send;
  kDataPipelineMessage := 3%N;
  ByteSize := λ proto, length (wire proto);
  SerializeToArray := λ proto size,
    if decide (length (wire proto) ≤ size) then Some (wire proto) else None;
|}.

Definition relation : CatalogRelationSchema := {| getID := 4%Z |}.

(** The pipeline record of operator 2 of query 9 for a block of relation 4. *)
Definition proto (id : block_id) (part_id : partition_id)
    : serialization.DataPipelineMessage :=
  {| serialization.operator_index := 2%N;
     serialization.block_id := id;
     serialization.relation_id := 4%Z;
     serialization.query_id := 9%N;
     serialization.partition_id := part_id |}.

Definition base (type : InsertDestination.InsertDestinationType)
    : InsertDestination.t :=
  {| InsertDestination.insert_dest_type_ := type;
     InsertDestination.thread_id_map_ := ({[ 11 := 21%N ]} : gmap thread_id tmb.client_id);
     InsertDestination.relation_ := relation;
     InsertDestination.layout_ := ();
     InsertDestination.relational_op_index_ := 2%N;
     InsertDestination.query_id_ := 9%N;
     InsertDestination.scheduler_client_id_ := 1%N |}.

(** A world whose bus has the scheduler (client 1) connected, and one whose
    bus has nobody connected. *)
Definition world (scheduler_connected : bool) : World :=
  {| bus := {| connected := if scheduler_connected then [1%N] else [];
               delivered := [] |};
     storage := [];
     this_thread := 11;
     trace := [] |}.

(** id mod 2 over the first attribute, two partitions. *)
Definition mod2 : PartitionSchemeHeader.t :=
  {| PartitionSchemeHeader.getPartitionAttributeIds := [0%Z];
     PartitionSchemeHeader.getNumPartitions := 2;
     PartitionSchemeHeader.getPartitionId := λ values,
       match values with
       | v :: _ => Z.to_nat (v mod 2)
       | [] => 0
       end |}.

(** No partitioning attributes, four partitions. *)
Definition passthrough : PartitionSchemeHeader.t :=
  {| PartitionSchemeHeader.getPartitionAttributeIds := [];
     PartitionSchemeHeader.getNumPartitions := 4;
     PartitionSchemeHeader.getPartitionId := λ _, 0 |}.

Definition partitioned (header : PartitionSchemeHeader.t)
    (refs : list (list block_id)) : PartitionAwareInsertDestination.t :=
  PartitionAwareInsertDestination.with_available_block_refs
    (PartitionAwareInsertDestination.new header
       ({[ 11 := 21%N ]} : gmap thread_id tmb.client_id) relation ()
       (replicate (PartitionSchemeHeader.getNumPartitions header) []) 2%N 9%N 1%N)
    refs.

(** Three rows at the positions 0, 1, 2 whose first attribute is the
    position, and a tuple whose first attribute is 3. *)
Definition three_rows : ValueAccessor :=
  {| current := None;
     pending := [ (0%Z, {| attribute_values_ := [0%Z] |});
                  (1%Z, {| attribute_values_ := [1%Z] |});
                  (2%Z, {| attribute_values_ := [2%Z] |}) ] |}.

Definition tuple3 : Tuple := {| attribute_values_ := [3%Z] |}.

Definition no_members : list TupleIdSequence.t := [∅; ∅].

(** A block added to partition 1, then a drain. *)
Definition some_calls : list PartitionAwareInsertDestination.Call :=
  [ PartitionAwareInsertDestination.CallAddBlockToPool 5%N 1;
    PartitionAwareInsertDestination.CallGetPartiallyFilledBlocks [] [] ].

End Sample.

(** ** Runs of calls *)

Section Runs.
Context `{!Collaborators}.

(** sendBlockFilledMessage for the blocks [blocks], each with its partition
    id, one call after the other by the same thread. *)
Fixpoint notify_all (d : InsertDestination.t)
    (blocks : list (block_id * partition_id)) : Exec World unit :=
  match blocks with
  | [] => ret ()
  | block :: rest =>
      (InsertDestination.sendBlockFilledMessage d block.1 block.2 ;;;
       notify_all d rest)%exec
  end.

(** The event of the send that sendBlockFilledMessage makes for [block] in
    the world [w], when the record serialises to [proto_bytes] and the bus
    answers [status]. *)
Definition notification (d : InsertDestination.t) (w : World)
    (block : block_id * partition_id) (proto_bytes : list Byte.byte)
    (status : tmb.SendStatus) : Event :=
  EvSend (getValue (InsertDestination.thread_id_map_ d) (this_thread w))
         (InsertDestination.scheduler_client_id_ d)
         {| tmb.message := proto_bytes;
            tmb.message_bytes :=
              ByteSize (InsertDestination.DataPipelineMessage_of d block.1 block.2);
            tmb.message_type := kDataPipelineMessage |}
         status.

(** The sends of a run of notifications: [events] are the sends for a
    prefix of [blocks], in the order of the blocks. *)
Definition sends_for_prefix (d : InsertDestination.t) (w : World)
    (blocks : list (block_id * partition_id))
    (events : list Event) : Prop :=
  Forall2
    (λ e block,
       ∃ proto_bytes status,
         SerializeToArray
           (InsertDestination.DataPipelineMessage_of d block.1 block.2)
           (ByteSize (InsertDestination.DataPipelineMessage_of d block.1 block.2)) =
           Some proto_bytes
         ∧ e = notification d w block proto_bytes status)
    events (take (length events) blocks).

Definition status_of (e : Event) : option tmb.SendStatus :=
  match e with
  | EvSend _ _ _ status => Some status
  | _ => None
  end.

(** What a run of notifications over [blocks] by the thread [thread] is to
    do to a bus in the state [b]: the record of each block in turn is
    serialised and sent, the bus answering from the state the sends before
    left it in, up to and including the first send that is not answered
    OK, and not beyond a record that does not serialise. The result is the
    sends made, the bus after them, and whether every block was announced
    with the answer OK. *)
Fixpoint announce (d : InsertDestination.t) (thread : thread_id)
    (b : MessageBus) (blocks : list (block_id * partition_id))
    : list Event * MessageBus * bool :=
  match blocks with
  | [] => ([], b, true)
  | block :: rest =>
      let proto := InsertDestination.DataPipelineMessage_of d block.1 block.2 in
      match SerializeToArray proto (ByteSize proto) with
      | None => ([], b, false)
      | Some proto_bytes =>
          let sender := getValue (InsertDestination.thread_id_map_ d) thread in
          let receiver := InsertDestination.scheduler_client_id_ d in
          let msg := {| tmb.message := proto_bytes;
                        tmb.message_bytes := ByteSize proto;
                        tmb.message_type := kDataPipelineMessage |} in
          let answer := Send b sender receiver msg in
          let e := EvSend sender receiver msg answer.1 in
          if decide (answer.1 = tmb.kOK)
          then let r := announce d thread answer.2 rest in
               (e :: r.1.1, r.1.2, r.2)
          else ([e], answer.2, false)
      end
  end.

(** addBlockToPool for the pairs [adds] of a block and a partition, as
    calls in this order. *)
Definition add_calls (adds : list (block_id * partition_id))
    : list PartitionAwareInsertDestination.Call :=
  (λ add, PartitionAwareInsertDestination.CallAddBlockToPool add.1 add.2)
    <$> adds.

(** The blocks of [adds] that were added to partition [part_id], in the
    order of the calls. *)
Definition added_to (part_id : partition_id)
    (adds : list (block_id * partition_id)) : list block_id :=
  fst <$> filter (λ add, add.2 = part_id) adds.

End Runs.

(** ** class AggregationHandleMax (expressions/aggregation/AggregationHandleMax.cpp) *)

Module AggregationHandleMax.
Section AggregationHandleMax.
Context `{!Collaborators}.

(** AggregationStateMax, as far as mergeStates reads it: the running
    maximum [max_] (its mutex is not represented). *)
Record AggregationStateMax := {
  max_ : TypedValue;
}.

(** TypedValue::isNull() (types/TypedValue.hpp), and the two overloads of
    compareAndUpdate of the class (AggregationHandleMax.hpp): they are
    declared outside the files at hand and are taken as they come. *)
Variable isNull : TypedValue → bool.
Variable compareAndUpdate :
  AggregationStateMax → TypedValue → AggregationStateMax.
Variable compareAndUpdate_value : TypedValue → TypedValue → TypedValue.

(** void mergeStates(const AggregationState &source,
                     AggregationState *destination) const:
    the destination after the call. *)
Definition mergeStates (source destination : AggregationStateMax)
    : AggregationStateMax :=
  if negb (isNull (max_ source))
  then compareAndUpdate destination (max_ source)
  else destination.

(** void mergeStates(const std::uint8_t *source,
                     std::uint8_t *destination) const:
    both pointers are read as pointers to a TypedValue. *)
Definition mergeStates_bytes (source destination : TypedValue) : TypedValue :=
  if negb (isNull source)
  then compareAndUpdate_value destination source
  else destination.

(** The partial states [sources] merged into [destination], one call of
    mergeStates after the other. *)
Definition merge_all (sources : list AggregationStateMax)
    (destination : AggregationStateMax) : AggregationStateMax :=
  foldl (λ destination source, mergeStates source destination)
        destination sources.

Definition merge_all_bytes (sources : list TypedValue)
    (destination : TypedValue) : TypedValue :=
  foldl (λ destination source, mergeStates_bytes source destination)
        destination sources.

End AggregationHandleMax.
End AggregationHandleMax.

(** ** Further sample inputs *)

Module Sample2.

(** The collaborators of [Sample] with a protocol buffer that cannot be
    written into its buffer. *)
#[local] Instance unserialisable : Collaborators := {|
  TypedValue := Z;
  StorageBlockLayout := unit;
  MutableBlockReference := block_id;
  StorageBlock_getID := λ block, block;
  StorageManager := list block_id;
  createBlock := λ sm _ _,
    let id := N.of_nat (length sm) in (id, sm ++ [id]);
  getBlockMutable := λ sm id, (id, sm ++ [id]);
  ClientIDMap := gmap thread_id tmb.client_id;
  getValue := λ m thread, default 0%N (m !! thread);
  MessageBus := Sample.Bus;
  Send := Sample.send;
  kDataPipelineMessage := 3%N;
  ByteSize := λ proto, length (Sample.wire proto);
  SerializeToArray := λ _ _, None;
|}.

Definition base : @InsertDestination.t unserialisable :=
  {| InsertDestination.insert_dest_type_ :=
       InsertDestination.kBlockPoolInsertDestination;
     InsertDestination.thread_id_map_ :=
       ({[ 11 := 21%N ]} : gmap thread_id tmb.client_id);
     InsertDestination.relation_ := Sample.relation;
     InsertDestination.layout_ := ();
     InsertDestination.relational_op_index_ := 2%N;
     InsertDestination.query_id_ := 9%N;
     InsertDestination.scheduler_client_id_ := 1%N |}.

Definition world : @World unserialisable :=
  {| bus := {| Sample.connected := [1%N]; Sample.delivered := [] |};
     storage := [];
     this_thread := 11;
     trace := [] |}.

(** Two tuples that agree on attribute 0 and differ on attribute 1. *)
Definition tuple_a : @Tuple Sample.collaborators :=
  @Build_Tuple Sample.collaborators [3%Z; 10%Z].
Definition tuple_b : @Tuple Sample.collaborators :=
  @Build_Tuple Sample.collaborators [3%Z; 20%Z].

(** Blocks 5 and 7 added to partition 1 and block 6 to partition 0. *)
Definition adds : list (block_id * partition_id) :=
  [ (5%N, 1); (6%N, 0); (7%N, 1) ].

End Sample2.

Module Sample3.

(** The collaborators of [Sample] with a bus that takes every message. *)
#[local] Instance accepting : Collaborators := {|
  TypedValue := Z;
  StorageBlockLayout := unit;
  MutableBlockReference := block_id;
  StorageBlock_getID := λ block, block;
  StorageManager := list block_id;
  createBlock := λ sm _ _,
    let id := N.of_nat (length sm) in (id, sm ++ [id]);
  getBlockMutable := λ sm id, (id, sm ++ [id]);
  ClientIDMap := gmap thread_id tmb.client_id;
  getValue := λ m thread, default 0%N (m !! thread);
  MessageBus := list (tmb.client_id * tmb.TaggedMessage);
  Send := λ b sender receiver msg, (tmb.kOK, b ++ [(receiver, msg)]);
  kDataPipelineMessage := 3%N;
  ByteSize := λ proto, length (Sample.wire proto);
  SerializeToArray := λ proto size,
    if decide (length (Sample.wire proto) ≤ size)
    then Some (Sample.wire proto) else None;
|}.

(** Blocks that take two tuples in a round. *)
Definition two_per_block (sm : @StorageManager accepting)
    (block : @MutableBlockReference accepting)
    (accessor_attribute_map : list (@ValueAccessor accepting * list attribute_id))
    : nat * @StorageManager accepting :=
  (Nat.min 2 (tuples_ahead accessor_attribute_map), sm).

Definition pool : @BlockPoolInsertDestination.t accepting :=
  @BlockPoolInsertDestination.new accepting
    ({[ 11 := 21%N ]} : gmap thread_id tmb.client_id) Sample.relation ()
    2%N 9%N 1%N.

Definition world : @World accepting :=
  @Build_World accepting [] [] 11 [].

(** Three rows, read through one accessor. *)
Definition three_rows : list (@ValueAccessor accepting * list attribute_id) :=
  [ (@Build_ValueAccessor accepting None
       [ (0%Z, @Build_Tuple accepting [0%Z]);
         (1%Z, @Build_Tuple accepting [1%Z]);
         (2%Z, @Build_Tuple accepting [2%Z]) ],
     [0%Z]) ].

End Sample3.

(** * Properties *)

(** ** The pipeline notification *)

Section Notification.
Context `{!Collaborators}.

Implicit Types (d : InsertDestination.t) (w : World).

Lemma SendTMBMessage_trace sender receiver msg w :
  trace (QueryExecutionUtil.SendTMBMessage sender receiver msg w).2 =
  trace w ++ [EvSend sender receiver msg
                (QueryExecutionUtil.SendTMBMessage sender receiver msg w).1].
Proof.
  unfold QueryExecutionUtil.SendTMBMessage.
  destruct (Send (bus w) sender receiver msg) as [status bus']. reflexivity.
Qed.

Lemma SendTMBMessage_status sender receiver msg w :
  (QueryExecutionUtil.SendTMBMessage sender receiver msg w).1 =
  (Send (bus w) sender receiver msg).1.
Proof.
  unfold QueryExecutionUtil.SendTMBMessage.
  destruct (Send (bus w) sender receiver msg) as [status bus']. reflexivity.
Qed.

Lemma sends_app (tr1 tr2 : list Event) :
  sends (tr1 ++ tr2) = sends tr1 ++ sends tr2.
Proof. unfold sends. apply List.filter_app. Qed.

(** What sendBlockFilledMessage does once the record is serialised: one
    call of the bus, then the CHECK on its status. *)
Lemma sendBlockFilledMessage_unfold d id part_id w proto_bytes :
  let proto := InsertDestination.DataPipelineMessage_of d id part_id in
  let msg := {| tmb.message := proto_bytes;
                tmb.message_bytes := ByteSize proto;
                tmb.message_type := kDataPipelineMessage |} in
  let sent :=
    QueryExecutionUtil.SendTMBMessage
      (getValue (InsertDestination.thread_id_map_ d) (this_thread w))
      (InsertDestination.scheduler_client_id_ d) msg w in
  SerializeToArray proto (ByteSize proto) = Some proto_bytes →
  InsertDestination.sendBlockFilledMessage d id part_id w =
    if decide (sent.1 = tmb.kOK)
    then Returned () sent.2
    else Aborted (CheckFailed "send_status == tmb::MessageBus::SendStatus::kOK") sent.2.
Proof.
  intros proto msg sent Hser.
  unfold InsertDestination.sendBlockFilledMessage.
  fold proto. rewrite Hser. fold msg. fold sent.
  destruct sent as [status w']. reflexivity.
Qed.

(** C1. For every block-full notification, the destination builds a
    DataPipelineMessage whose fields are operator_index (its relational
    operator index), block_id, relation_id (the id of the target relation),
    query_id and partition_id, and sends its serialised form over the bus
    to scheduler_client_id as a tagged message with tag
    kDataPipelineMessage; the sender is what the process-wide thread-id map
    gives for the executing thread, not an argument of the call. The bus is
    left in the state this one send puts it in, the trace grows by this
    send with the status the bus answered, nothing else changes, and the
    call returns when the answer is OK and aborts otherwise. *)
Theorem sendBlockFilledMessage_sends_pipeline_message
    d (id : block_id) (part_id : partition_id) w
    (proto_bytes : list Byte.byte) :
  let proto :=
    {| serialization.operator_index := InsertDestination.relational_op_index_ d;
       serialization.block_id := id;
       serialization.relation_id := getID (InsertDestination.relation_ d);
       serialization.query_id := InsertDestination.query_id_ d;
       serialization.partition_id := part_id |} in
  let sender := getValue (InsertDestination.thread_id_map_ d) (this_thread w) in
  let receiver := InsertDestination.scheduler_client_id_ d in
  let msg := {| tmb.message := proto_bytes;
                tmb.message_bytes := ByteSize proto;
                tmb.message_type := kDataPipelineMessage |} in
  let answer := Send (bus w) sender receiver msg in
  let outcome := InsertDestination.sendBlockFilledMessage d id part_id w in
  SerializeToArray proto (ByteSize proto) = Some proto_bytes →
  final_world outcome =
    {| bus := answer.2;
       storage := storage w;
       this_thread := this_thread w;
       trace := trace w ++ [EvSend sender receiver msg answer.1] |}
  ∧ outcome =
      if decide (answer.1 = tmb.kOK)
      then Returned () (final_world outcome)
      else Aborted (CheckFailed "send_status == tmb::MessageBus::SendStatus::kOK")
                   (final_world outcome).
Proof.
  intros proto sender receiver msg answer outcome Hser. subst outcome.
  rewrite (sendBlockFilledMessage_unfold d id part_id w proto_bytes Hser).
  cbv zeta.
  unfold QueryExecutionUtil.SendTMBMessage,
    InsertDestination.DataPipelineMessage_of.
  subst answer msg sender receiver proto.
  destruct (Send _ _ _ _) as [status bus']. simpl.
  case_decide; simpl; by split.
Qed.

(** A call that returns had a send with status OK. *)
Lemma sendBlockFilledMessage_returns_only_on_kOK
    d (id : block_id) (part_id : partition_id) w w'
    (proto_bytes : list Byte.byte) :
  let proto := InsertDestination.DataPipelineMessage_of d id part_id in
  let msg := {| tmb.message := proto_bytes;
                tmb.message_bytes := ByteSize proto;
                tmb.message_type := kDataPipelineMessage |} in
  SerializeToArray proto (ByteSize proto) = Some proto_bytes →
  InsertDestination.sendBlockFilledMessage d id part_id w = Returned () w' →
  (Send (bus w)
        (getValue (InsertDestination.thread_id_map_ d) (this_thread w))
        (InsertDestination.scheduler_client_id_ d) msg).1 = tmb.kOK.
Proof.
  intros proto msg Hser.
  rewrite (sendBlockFilledMessage_unfold d id part_id w proto_bytes Hser).
  cbv zeta. fold proto msg. rewrite <- SendTMBMessage_status.
  case_decide; [done|discriminate].
Qed.

(** C4. If the send of a pipeline notification returns a status other than
    OK, the process aborts on the CHECK of the status: the call does not
    return, so the failure does not reach the caller, and the bus has been
    called exactly once, so there is no retry. *)
Theorem sendBlockFilledMessage_transport_failure_is_fatal
    d (id : block_id) (part_id : partition_id) w
    (proto_bytes : list Byte.byte) (status : tmb.SendStatus) :
  let proto := InsertDestination.DataPipelineMessage_of d id part_id in
  let sender := getValue (InsertDestination.thread_id_map_ d) (this_thread w) in
  let receiver := InsertDestination.scheduler_client_id_ d in
  let msg := {| tmb.message := proto_bytes;
                tmb.message_bytes := ByteSize proto;
                tmb.message_type := kDataPipelineMessage |} in
  let outcome := InsertDestination.sendBlockFilledMessage d id part_id w in
  SerializeToArray proto (ByteSize proto) = Some proto_bytes →
  (Send (bus w) sender receiver msg).1 = status →
  status ≠ tmb.kOK →
  outcome =
    Aborted (CheckFailed "send_status == tmb::MessageBus::SendStatus::kOK")
            (final_world outcome)
  ∧ (∀ w', outcome ≠ Returned () w')
  ∧ sends (trace (final_world outcome)) =
      sends (trace w) ++ [EvSend sender receiver msg status].
Proof.
  intros proto sender receiver msg outcome Hser Hstatus Hfailed.
  subst outcome.
  rewrite (sendBlockFilledMessage_unfold d id part_id w proto_bytes Hser).
  cbv zeta. fold proto sender receiver msg.
  pose proof (SendTMBMessage_trace sender receiver msg w) as Htr.
  pose proof (SendTMBMessage_status sender receiver msg w) as Hst.
  rewrite Hstatus in Hst.
  destruct (QueryExecutionUtil.SendTMBMessage sender receiver msg w)
    as [status' w1] eqn:Hsent.
  simpl in *. subst status'.
  rewrite decide_False by done. simpl.
  split; [done|]. split; [discriminate|].
  rewrite Htr, sends_app. reflexivity.
Qed.

End Notification.

Lemma sendBlockFilledMessage_sends_pipeline_message_witness :
  @SerializeToArray Sample.collaborators (Sample.proto 5%N 1)
    (@ByteSize Sample.collaborators (Sample.proto 5%N 1)) =
    Some (Sample.wire (Sample.proto 5%N 1))
  ∧ @InsertDestination.sendBlockFilledMessage Sample.collaborators
      (Sample.base InsertDestination.kBlockPoolInsertDestination)
      5%N 1 (Sample.world true) =
    Returned ()
      (@Build_World Sample.collaborators
         {| Sample.connected := [1%N];
            Sample.delivered :=
              [(1%N, {| tmb.message := Sample.wire (Sample.proto 5%N 1);
                        tmb.message_bytes := 5;
                        tmb.message_type := 3%N |})] |}
         [] 11
         [EvSend 21%N 1%N
            {| tmb.message := Sample.wire (Sample.proto 5%N 1);
               tmb.message_bytes := 5;
               tmb.message_type := 3%N |} tmb.kOK]).
Proof.
  split; [reflexivity|].
  destruct (@sendBlockFilledMessage_sends_pipeline_message Sample.collaborators
              (Sample.base InsertDestination.kBlockPoolInsertDestination)
              5%N 1 (Sample.world true) (Sample.wire (Sample.proto 5%N 1))
              eq_refl)
    as [Hworld Houtcome].
  rewrite Houtcome, Hworld. reflexivity.
Defined.

Lemma sendBlockFilledMessage_transport_failure_is_fatal_witness :
  tmb.kNotOK 1 ≠ tmb.kOK
  ∧ @InsertDestination.sendBlockFilledMessage Sample.collaborators
      (Sample.base InsertDestination.kBlockPoolInsertDestination)
      5%N 0 (Sample.world false) =
    Aborted (CheckFailed "send_status == tmb::MessageBus::SendStatus::kOK")
      (final_world
         (@InsertDestination.sendBlockFilledMessage Sample.collaborators
            (Sample.base InsertDestination.kBlockPoolInsertDestination)
            5%N 0 (Sample.world false)))
  ∧ sends (trace (final_world
      (@InsertDestination.sendBlockFilledMessage Sample.collaborators
         (Sample.base InsertDestination.kBlockPoolInsertDestination)
         5%N 0 (Sample.world false)))) =
    [EvSend 21%N 1%N
       {| tmb.message := Sample.wire (Sample.proto 5%N 0);
          tmb.message_bytes := 5;
          tmb.message_type := 3%N |} (tmb.kNotOK 1)].
Proof.
  assert (Hne : tmb.kNotOK 1 ≠ tmb.kOK) by discriminate.
  destruct (@sendBlockFilledMessage_transport_failure_is_fatal
              Sample.collaborators
              (Sample.base InsertDestination.kBlockPoolInsertDestination)
              5%N 0 (Sample.world false)
              (Sample.wire (Sample.proto 5%N 0)) (tmb.kNotOK 1)
              eq_refl eq_refl Hne)
    as (Hfatal & _ & Hsends).
  split; [exact Hne|]. split; [exact Hfatal|exact Hsends].
Defined.

(** ** Entry points that are fatal *)

Section FatalEntryPoints.
Context `{!Collaborators}.









(** C8. getBlockForInsertion() without a partition id on a PartitionAware
    destination is fatal: for every destination and world the call aborts
    the process with the diagnostic that asks for a partition id, and
    returns no block. *)
Theorem PartitionAware_getBlockForInsertion_is_fatal
    (d : PartitionAwareInsertDestination.t) (w : World) :
  PartitionAwareInsertDestination.getBlockForInsertion d w =
    Aborted (LogFatal
      "PartitionAwareInsertDestination::getBlockForInsertion needs a partition id as an argument.") w
  ∧ ∀ block d' w',
      PartitionAwareInsertDestination.getBlockForInsertion d w ≠
      Returned (block, d') w'.
Proof. split; [reflexivity|]. intros block d' w'. discriminate. Qed.

End FatalEntryPoints.


(** Scenario: three tuples into blocks that take two. The first block is
    created, filled, marked done and announced; the second is created, takes
    the last tuple and goes back to the pool. *)
Example bulkInsertTuplesFromValueAccessors_three_tuples :
  ∃ d' w',
    @bulkInsertTuplesFromValueAccessors Sample3.accepting
      Sample3.two_per_block 3 (BlockPool Sample3.pool)
      Sample3.three_rows false Sample3.world =
    Returned (Some (BlockPool d')) w'
    ∧ BlockPoolInsertDestination.done_block_ids_ d' = [0%N]
    ∧ BlockPoolInsertDestination.available_block_refs_ d' = [1%N]
    ∧ length (sends (trace w')) = 1
    ∧ length (creations (trace w')) = 2.
Proof. eexists _, _. split; [reflexivity|]. by repeat split. Qed.

(** ** AlwaysCreateBlockInsertDestination *)

Section AlwaysCreate.
Context `{!Collaborators}.

Import AlwaysCreateBlockInsertDestination.

Lemma return_all_ids d returns :
  returned_block_ids_ (return_all d returns) =
  returned_block_ids_ d ++ ((StorageBlock_getID ∘ fst) <$> returns).
Proof.
  unfold return_all. revert d.
  induction returns as [|r returns IH]; intros d; simpl.
  - by rewrite app_nil_r.
  - rewrite IH. simpl. by rewrite <- app_assoc.
Qed.

(** C9. For an AlwaysCreate destination getPartiallyFilledBlocks appends
    nothing to either output vector and leaves the destination as it is,
    and getTouchedBlocks returns exactly returned_block_ids_: after the
    blocks [returns] have been handed back to a destination, these are the
    ids it had followed by the ids of the blocks in the order they were
    returned, whatever the full flags were. *)
Theorem AlwaysCreate_finalisation (d : t)
    (partial_blocks : list MutableBlockReference)
    (part_ids : list partition_id)
    (returns : list (MutableBlockReference * bool)) :
  getPartiallyFilledBlocks d partial_blocks part_ids =
    (d, partial_blocks, part_ids)
  ∧ getTouchedBlocks d = returned_block_ids_ d
  ∧ getTouchedBlocks (return_all d returns) =
      getTouchedBlocks d ++ ((StorageBlock_getID ∘ fst) <$> returns)
  ∧ ∀ thread_id_map relation layout relational_op_index query_id
      scheduler_client_id,
      getTouchedBlocks
        (return_all (new thread_id_map relation layout relational_op_index
                         query_id scheduler_client_id) returns) =
      (StorageBlock_getID ∘ fst) <$> returns.
Proof.
  repeat split.
  - apply return_all_ids.
  - intros. unfold getTouchedBlocks, getTouchedBlocksInternal.
    by rewrite return_all_ids.
Qed.

End AlwaysCreate.

(** ** BlockPoolInsertDestination *)

Section BlockPool.
Context `{!Collaborators}.

Import BlockPoolInsertDestination.

Lemma pop_back_nil {A} : pop_back (@nil A) = None.
Proof. reflexivity. Qed.

Lemma pop_back_snoc {A} (v : list A) (x : A) :
  pop_back (v ++ [x]) = Some (v, x).
Proof.
  unfold pop_back. rewrite last_snoc. simpl.
  rewrite length_app. simpl. rewrite Nat.add_1_r. simpl.
  by rewrite take_app_length.
Qed.

Lemma creations_app (tr1 tr2 : list Event) :
  creations (tr1 ++ tr2) = creations tr1 ++ creations tr2.
Proof. unfold creations. apply List.filter_app. Qed.

Lemma creations_loads (ids : list block_id) :
  creations (EvGetBlockMutable <$> ids) = [].
Proof. induction ids as [|id ids IH]; [done|]. simpl. exact IH. Qed.

(** Taking the blocks [picked] off the back of the pre-existing ids, one
    acquisition after the other. *)
Lemma acquire_preexisting base refs_unused rest picked done w :
  refs_unused = [] →
  acquire (length picked)
    {| base := base; available_block_refs_ := refs_unused;
       available_block_ids_ := rest ++ picked; done_block_ids_ := done |} w =
  Returned
    ((load_all (reverse picked) (storage w)).1,
     {| base := base; available_block_refs_ := [];
        available_block_ids_ := rest; done_block_ids_ := done |})
    {| bus := bus w;
       storage := (load_all (reverse picked) (storage w)).2;
       this_thread := this_thread w;
       trace := trace w ++ (EvGetBlockMutable <$> reverse picked) |}.
Proof.
  intros ->. revert w.
  induction picked as [|id picked IH] using rev_ind; intros w.
  - simpl. unfold ret. rewrite app_nil_r, app_nil_r. by destruct w.
  - rewrite length_app. simpl. rewrite Nat.add_1_r. simpl.
    unfold bind at 1. unfold getBlockForInsertion. simpl.
    rewrite app_assoc, pop_back_snoc.
    unfold bind at 1. unfold loadBlock.
    rewrite reverse_snoc. simpl.
    destruct (getBlockMutable (storage w) id) as [block sm'] eqn:Hload.
    unfold ret at 1. simpl.
    unfold bind at 1. rewrite IH. simpl.
    destruct (load_all (reverse picked) sm') as [blocks sm''].
    unfold ret. simpl. by rewrite <- app_assoc.
Qed.

(** C5. A BlockPool destination hands out a block as follows: a reference
    waiting in available_block_refs_ is popped and returned, and the
    storage manager is not called; otherwise, if available_block_ids_ is
    not empty, its last id is taken off and the reference the storage
    manager loads for it is returned; only when both are empty is a new
    block created. So a destination constructed with the pre-existing ids
    [rest ++ picked] answers its first [length picked] acquisitions with
    the blocks of [picked] loaded last first, and creates no block. *)
Theorem BlockPool_getBlockForInsertion_order
    (b : InsertDestination.t) (refs : list MutableBlockReference)
    (retval : MutableBlockReference) (ids rest picked done : list block_id)
    (id : block_id) (w : World)
    (thread_id_map : ClientIDMap) (relation : CatalogRelationSchema)
    (layout : StorageBlockLayout) (relational_op_index query_id : N)
    (scheduler_client_id : tmb.client_id) :
  getBlockForInsertion
    {| base := b; available_block_refs_ := refs ++ [retval];
       available_block_ids_ := ids; done_block_ids_ := done |} w =
  Returned
    (retval,
     {| base := b; available_block_refs_ := refs;
        available_block_ids_ := ids; done_block_ids_ := done |}) w
  ∧ getBlockForInsertion
      {| base := b; available_block_refs_ := [];
         available_block_ids_ := ids ++ [id]; done_block_ids_ := done |} w =
    Returned
      ((getBlockMutable (storage w) id).1,
       {| base := b; available_block_refs_ := [];
          available_block_ids_ := ids; done_block_ids_ := done |})
      {| bus := bus w; storage := (getBlockMutable (storage w) id).2;
         this_thread := this_thread w;
         trace := trace w ++ [EvGetBlockMutable id] |}
  ∧ getBlockForInsertion
      {| base := b; available_block_refs_ := [];
         available_block_ids_ := []; done_block_ids_ := done |} w =
    Returned
      ((createBlock (storage w) (InsertDestination.relation_ b)
                    (InsertDestination.layout_ b)).1,
       {| base := b; available_block_refs_ := [];
          available_block_ids_ := []; done_block_ids_ := done |})
      {| bus := bus w;
         storage := (createBlock (storage w) (InsertDestination.relation_ b)
                                 (InsertDestination.layout_ b)).2;
         this_thread := this_thread w;
         trace := trace w ++ [EvCreateBlock (InsertDestination.relation_ b)] |}
  ∧ ∃ d' w',
      acquire (length picked)
        (new_with_blocks thread_id_map relation layout (rest ++ picked)
           relational_op_index query_id scheduler_client_id) w =
      Returned ((load_all (reverse picked) (storage w)).1, d') w'
      ∧ available_block_ids_ d' = rest
      ∧ trace w' = trace w ++ (EvGetBlockMutable <$> reverse picked)
      ∧ creations (trace w') = creations (trace w).
Proof.
  split; [|split; [|split]].
  - unfold getBlockForInsertion. simpl. by rewrite pop_back_snoc.
  - unfold getBlockForInsertion. simpl. rewrite pop_back_snoc.
    unfold bind, loadBlock.
    by destruct (getBlockMutable (storage w) id) as [block sm'].
  - unfold getBlockForInsertion. simpl.
    unfold bind, createNewBlock. simpl.
    by destruct (createBlock (storage w) (InsertDestination.relation_ b)
                             (InsertDestination.layout_ b)) as [block sm'].
  - unfold new_with_blocks.
    eexists _, _. split; [by apply acquire_preexisting|].
    simpl. split; [done|]. split; [done|].
    by rewrite creations_app, creations_loads, app_nil_r.
Qed.

End BlockPool.

(** Scenario: a pool reconstructed with the pre-existing ids [B7, B9]
    answers its first two acquisitions with B9 and then B7, and asks the
    storage manager for these two blocks only. *)
Example BlockPool_B7_B9 :
  ∃ d' w',
    @BlockPoolInsertDestination.acquire Sample.collaborators 2
      (@BlockPoolInsertDestination.new_with_blocks Sample.collaborators
         ({[ 11 := 21%N ]} : gmap thread_id tmb.client_id) Sample.relation ()
         [7%N; 9%N] 2%N 9%N 1%N)
      (Sample.world true) =
    Returned ([9%N; 7%N], d') w'
    ∧ BlockPoolInsertDestination.available_block_ids_ d' = []
    ∧ trace w' = [EvGetBlockMutable 9%N; EvGetBlockMutable 7%N].
Proof. eexists _, _. split; [reflexivity|]. split; reflexivity. Qed.

(** ** PartitionAwareInsertDestination: draining *)

Section PartitionAwareDrain.
Context `{!Collaborators}.

Import PartitionAwareInsertDestination.

Implicit Types (d : t) (refs : list MutableBlockReference)
  (v pre post : list (list MutableBlockReference))
  (partial_blocks : list MutableBlockReference)
  (part_ids : list partition_id).

Lemma with_available_block_refs_same d :
  with_available_block_refs d (available_block_refs_ d) = d.
Proof. by destruct d. Qed.

Lemma with_available_block_refs_twice d v v' :
  with_available_block_refs (with_available_block_refs d v) v' =
  with_available_block_refs d v'.
Proof. reflexivity. Qed.

Lemma move_refs_appends refs part_id partial_blocks part_ids :
  move_refs refs part_id partial_blocks part_ids =
  (partial_blocks ++ refs, part_ids ++ replicate (length refs) part_id).
Proof.
  revert partial_blocks part_ids.
  induction refs as [|ref refs IH]; intros partial_blocks part_ids; simpl.
  - by rewrite !app_nil_r.
  - rewrite IH. by rewrite <- !app_assoc.
Qed.

Lemma getPartiallyFilledBlocksInPartition_middle d pre refs post
    partial_blocks part_ids :
  getPartiallyFilledBlocksInPartition
    (with_available_block_refs d (pre ++ refs :: post))
    partial_blocks part_ids (length pre) =
  Some (with_available_block_refs d (pre ++ [] :: post),
        partial_blocks ++ refs,
        part_ids ++ replicate (length refs) (length pre)).
Proof.
  unfold getPartiallyFilledBlocksInPartition. simpl.
  rewrite list_lookup_middle by done. simpl.
  rewrite move_refs_appends.
  rewrite with_available_block_refs_twice.
  f_equal. f_equal. f_equal.
  rewrite <- (Nat.add_0_r (length pre)). by rewrite insert_app_r.
Qed.

(** The loop over the partitions whose vectors are [v], after the
    partitions of [pre] and before those of [post]: the references of [v]
    are appended partition after partition, each with the id of its
    partition, and the vectors of [v] are left empty. *)
Lemma for_each_partition_drains d pre v post partial_blocks part_ids :
  for_each_partition (length v) (length pre)
    (with_available_block_refs d (pre ++ v ++ post))
    partial_blocks part_ids =
  Some (with_available_block_refs d (pre ++ replicate (length v) [] ++ post),
        partial_blocks ++ concat v,
        part_ids ++
          concat (imap (λ i refs, replicate (length refs) (length pre + i)) v)).
Proof.
  revert pre partial_blocks part_ids.
  induction v as [|refs v IH]; intros pre partial_blocks part_ids.
  - simpl. by rewrite !app_nil_r.
  - cbn [length for_each_partition app].
    rewrite getPartiallyFilledBlocksInPartition_middle. simpl.
    replace (pre ++ [] :: v ++ post) with ((pre ++ [[]]) ++ v ++ post)
      by (by rewrite <- app_assoc).
    replace (S (length pre)) with (length (pre ++ [[]]))
      by (rewrite length_app; simpl; lia).
    rewrite IH. f_equal. f_equal; [f_equal|].
    + f_equal. by rewrite <- app_assoc.
    + by rewrite <- app_assoc.
    + rewrite <- app_assoc. f_equal. rewrite Nat.add_0_r. f_equal. f_equal.
      apply imap_ext. intros i refs' _. simpl.
      f_equal. rewrite length_app. simpl. lia.
Qed.

Lemma getPartiallyFilledBlocks_drains d partial_blocks part_ids :
  length (available_block_refs_ d) =
    PartitionSchemeHeader.getNumPartitions (partition_scheme_header_ d) →
  getPartiallyFilledBlocks d partial_blocks part_ids =
  Some (with_available_block_refs d
          (replicate
             (PartitionSchemeHeader.getNumPartitions (partition_scheme_header_ d))
             []),
        partial_blocks ++ concat (available_block_refs_ d),
        part_ids ++
          concat (imap (λ part_id refs, replicate (length refs) part_id)
                       (available_block_refs_ d))).
Proof.
  intros Hlen. unfold getPartiallyFilledBlocks. rewrite <- Hlen.
  pose proof (for_each_partition_drains d [] (available_block_refs_ d) []
                partial_blocks part_ids) as Hdrain.
  simpl in Hdrain. rewrite !app_nil_r in Hdrain.
  rewrite with_available_block_refs_same in Hdrain.
  exact Hdrain.
Qed.

(** C3. getPartiallyFilledBlocks of a destination with P partitions visits
    the partitions 0, 1, ..., P-1 in this order: the references it appends
    to partial_blocks are those of partition 0 in their stored order, then
    those of partition 1, and so on, and part_ids receives the id of the
    partition once for each reference appended. Every partition is left
    with no reference. *)
Theorem PartitionAware_getPartiallyFilledBlocks_order d
    partial_blocks part_ids :
  length (available_block_refs_ d) =
    PartitionSchemeHeader.getNumPartitions (partition_scheme_header_ d) →
  getPartiallyFilledBlocks d partial_blocks part_ids =
    Some (with_available_block_refs d
            (replicate
               (PartitionSchemeHeader.getNumPartitions (partition_scheme_header_ d))
               []),
          partial_blocks ++ concat (available_block_refs_ d),
          part_ids ++
            concat (imap (λ part_id refs, replicate (length refs) part_id)
                         (available_block_refs_ d)))
  ∧ ∀ part_id refs,
      available_block_refs_ d !! part_id = Some refs →
      getPartiallyFilledBlocksInPartition d partial_blocks part_ids part_id =
        Some (with_available_block_refs d
                (<[part_id := []]> (available_block_refs_ d)),
              partial_blocks ++ refs,
              part_ids ++ replicate (length refs) part_id).
Proof.
  intros Hlen. split; [by apply getPartiallyFilledBlocks_drains|].
  intros part_id refs Hrefs.
  unfold getPartiallyFilledBlocksInPartition. rewrite Hrefs. simpl.
  by rewrite move_refs_appends.
Qed.

(** The vectors of a destination keep their number: the constructor makes
    one vector of references per partition, and a drain keeps them. *)
Lemma new_available_block_refs_length
    (header : PartitionSchemeHeader.t) (thread_id_map : ClientIDMap)
    (relation : CatalogRelationSchema) (layout : StorageBlockLayout)
    (partitions : list (list block_id)) (relational_op_index query_id : N)
    (scheduler_client_id : tmb.client_id) :
  let d := new header thread_id_map relation layout partitions
               relational_op_index query_id scheduler_client_id in
  length (available_block_refs_ d) =
    PartitionSchemeHeader.getNumPartitions (partition_scheme_header_ d).
Proof. simpl. apply length_replicate. Qed.

Lemma getPartiallyFilledBlocks_keeps_length d partial_blocks part_ids r :
  length (available_block_refs_ d) =
    PartitionSchemeHeader.getNumPartitions (partition_scheme_header_ d) →
  getPartiallyFilledBlocks d partial_blocks part_ids = Some r →
  length (available_block_refs_ r.1.1) =
    PartitionSchemeHeader.getNumPartitions (partition_scheme_header_ r.1.1).
Proof.
  intros Hlen. rewrite getPartiallyFilledBlocks_drains by done.
  intros [= <-]. simpl. apply length_replicate.
Qed.

Lemma concat_replicate_nil {A} (n : nat) :
  concat (replicate n (@nil A)) = [].
Proof. induction n as [|n IH]; [done|]. exact IH. Qed.

Lemma no_part_ids_for_empty_partitions (n first : nat) :
  concat (imap (λ i (refs : list MutableBlockReference),
                  replicate (length refs) (first + i))
               (replicate n [])) = [].
Proof.
  revert first. induction n as [|n IH]; intros first; [done|].
  simpl. rewrite <- (IH (S first)). f_equal.
  apply imap_ext. intros i refs _. simpl. f_equal. lia.
Qed.

(** C6. A second getPartiallyFilledBlocks with no insert in between appends
    nothing and is not an error. For an AlwaysCreate destination every call
    leaves the two output vectors as they are. For a PartitionAware
    destination the first call succeeds and the call that follows it,
    whatever output vectors it is given, returns them unchanged and leaves
    the destination as the first call left it. *)
Theorem getPartiallyFilledBlocks_twice
    (a : AlwaysCreateBlockInsertDestination.t) d
    partial_blocks part_ids
    (partial_blocks2 : list MutableBlockReference)
    (part_ids2 : list partition_id) :
  length (available_block_refs_ d) =
    PartitionSchemeHeader.getNumPartitions (partition_scheme_header_ d) →
  (let '(a1, partial_blocks1, part_ids1) :=
     AlwaysCreateBlockInsertDestination.getPartiallyFilledBlocks
       a partial_blocks part_ids in
   AlwaysCreateBlockInsertDestination.getPartiallyFilledBlocks
     a1 partial_blocks2 part_ids2 = (a1, partial_blocks2, part_ids2))
  ∧ ∃ d1 partial_blocks1 part_ids1,
      getPartiallyFilledBlocks d partial_blocks part_ids =
        Some (d1, partial_blocks1, part_ids1)
      ∧ getPartiallyFilledBlocks d1 partial_blocks2 part_ids2 =
        Some (d1, partial_blocks2, part_ids2).
Proof.
  intros Hlen. split; [reflexivity|].
  eexists _, _, _. split.
  - by apply getPartiallyFilledBlocks_drains.
  - rewrite getPartiallyFilledBlocks_drains
      by (simpl; apply length_replicate).
    simpl. rewrite concat_replicate_nil.
    rewrite (no_part_ids_for_empty_partitions _ 0).
    by rewrite !app_nil_r.
Qed.

End PartitionAwareDrain.

Lemma PartitionAware_getPartiallyFilledBlocks_order_witness :
  length (PartitionAwareInsertDestination.available_block_refs_
            (Sample.partitioned Sample.mod2 [[10%N; 11%N]; [12%N]])) = 2
  ∧ @PartitionAwareInsertDestination.getPartiallyFilledBlocks
      Sample.collaborators
      (Sample.partitioned Sample.mod2 [[10%N; 11%N]; [12%N]]) [] [] =
    Some (Sample.partitioned Sample.mod2 [[]; []],
          [10%N; 11%N; 12%N], [0; 0; 1]).
Proof.
  split; [reflexivity|].
  exact (proj1 (@PartitionAware_getPartiallyFilledBlocks_order
                  Sample.collaborators
                  (Sample.partitioned Sample.mod2 [[10%N; 11%N]; [12%N]])
                  [] [] eq_refl)).
Defined.

Lemma getPartiallyFilledBlocks_twice_witness :
  length (PartitionAwareInsertDestination.available_block_refs_
            (Sample.partitioned Sample.mod2 [[10%N; 11%N]; [12%N]])) = 2
  ∧ ∃ d1 partial_blocks1 part_ids1,
      @PartitionAwareInsertDestination.getPartiallyFilledBlocks
        Sample.collaborators
        (Sample.partitioned Sample.mod2 [[10%N; 11%N]; [12%N]]) [] [] =
        Some (d1, partial_blocks1, part_ids1)
      ∧ PartitionAwareInsertDestination.getPartiallyFilledBlocks d1 [] [] =
        Some (d1, [], []).
Proof.
  split; [reflexivity|].
  exact (proj2 (@getPartiallyFilledBlocks_twice Sample.collaborators
                  (@AlwaysCreateBlockInsertDestination.new Sample.collaborators
                     ({[ 11 := 21%N ]} : gmap thread_id tmb.client_id)
                     Sample.relation () 2%N 9%N 1%N)
                  (Sample.partitioned Sample.mod2 [[10%N; 11%N]; [12%N]])
                  [] [] [] [] eq_refl)).
Defined.

(** ** PartitionAwareInsertDestination: routing *)

Section PartitionAwareRouting.
Context `{!Collaborators}.

Import PartitionAwareInsertDestination.

Implicit Types (d : t) (tuple : Tuple) (accessor : ValueAccessor)
  (pm : list TupleIdSequence.t) (rows : list (tuple_id * Tuple))
  (part_id : partition_id) (position : tuple_id).

Local Abbreviation attribute_ids d :=
  (PartitionSchemeHeader.getPartitionAttributeIds (partition_scheme_header_ d)).
Local Abbreviation partitionOf d :=
  (PartitionSchemeHeader.getPartitionId (partition_scheme_header_ d)).

(** The partition getPartitionId answers with, given the values of the
    partitioning attributes of the tuple. *)
Lemma getPartitionId_of_values d tuple (values : list TypedValue) :
  mapM (getAttributeValue tuple) (attribute_ids d) = Some values →
  getPartitionId d tuple =
    Some (match attribute_ids d with
          | [] => input_partition_id_ d
          | _ => partitionOf d values
          end).
Proof.
  intros Hvalues. unfold getPartitionId. rewrite Hvalues. simpl.
  apply mapM_Some in Hvalues. apply Forall2_length in Hvalues.
  destruct (attribute_ids d), values; simpl in *; done.
Qed.

Lemma getPartitionId_no_attributes d tuple :
  attribute_ids d = [] → getPartitionId d tuple = Some (input_partition_id_ d).
Proof. intros Hempty. unfold getPartitionId. by rewrite Hempty. Qed.

(** [while_next] is the loop driven by next(): it stops when next() answers
    false, and otherwise runs the body on the accessor next() moved. *)
Lemma while_next_unfold {S} (body : ValueAccessor → S → option S)
    accessor (s : S) :
  while_next body (pending accessor) s =
  match next accessor with
  | (true, accessor') =>
      s' ← body accessor' s; while_next body (pending accessor') s'
  | (false, _) => Some s
  end.
Proof. unfold next. by destruct (pending accessor). Qed.

Lemma while_next_ext {S} (body1 body2 : ValueAccessor → S → option S) rows s :
  (∀ row rest s',
     body1 {| current := Some row; pending := rest |} s' =
     body2 {| current := Some row; pending := rest |} s') →
  while_next body1 rows s = while_next body2 rows s.
Proof.
  intros Hbody. revert s.
  induction rows as [|row rest IH]; intros s; [done|].
  simpl. rewrite Hbody. destruct (body2 _ s); simpl; [apply IH|done].
Qed.

Lemma while_next_classify d rows pm :
  while_next
    (λ accessor pm,
       row ← current accessor;
       part_id ← getPartitionId d row.2;
       set_member pm part_id row.1)
    rows pm = classify d rows pm.
Proof.
  revert pm. induction rows as [|row rest IH]; intros pm; [done|].
  simpl. destruct (getPartitionId d row.2) as [part_id|]; simpl; [|done].
  destruct (set_member pm part_id row.1) as [pm'|]; simpl; [apply IH|done].
Qed.

(** The two loops of setPartitionMembership classify each row by the rule
    of getPartitionId. *)
Lemma setPartitionMembership_classify d pm accessor :
  setPartitionMembership d pm accessor = classify d (pending accessor) pm.
Proof.
  rewrite <- while_next_classify. unfold setPartitionMembership.
  destruct (attribute_ids d) as [|a ids] eqn:Hids.
  - apply while_next_ext. intros row rest pm'. simpl.
    rewrite getPartitionId_no_attributes by done. reflexivity.
  - apply while_next_ext. intros row rest pm'.
    unfold getPartitionId. rewrite Hids.
    change (mapM (getTypedValue {| current := Some row; pending := rest |}))
      with (mapM (getAttributeValue row.2)).
    change (getCurrentPosition {| current := Some row; pending := rest |})
      with (Some row.1).
    change (current {| current := Some row; pending := rest |})
      with (Some row).
    change (Some row ≫= ?f) with (f row). cbv beta.
    destruct (mapM (getAttributeValue row.2) (a :: ids)) as [values|] eqn:Hvalues;
      [|reflexivity].
    apply mapM_Some in Hvalues. apply Forall2_length in Hvalues.
    destruct values; [done|reflexivity].
Qed.

Lemma set_member_length pm part_id position pm' :
  set_member pm part_id position = Some pm' → length pm' = length pm.
Proof.
  unfold set_member. intros Hset.
  destruct (pm !! part_id) as [sequence|]; simplify_eq/=.
  apply length_insert.
Qed.

Lemma set_member_is_Some pm part_id position :
  part_id < length pm → is_Some (set_member pm part_id position).
Proof.
  intros Hlt. unfold set_member.
  destruct (pm !! part_id) as [sequence|] eqn:Hlookup; simpl; [by eexists|].
  apply lookup_ge_None in Hlookup. lia.
Qed.

Lemma set_member_member pm part_id position pm' q x :
  set_member pm part_id position = Some pm' →
  member pm' q x ↔ member pm q x ∨ (q = part_id ∧ x = position).
Proof.
  unfold set_member, member. intros Hset.
  destruct (pm !! part_id) as [sequence|] eqn:Hlookup; simplify_eq/=.
  pose proof (lookup_lt_Some _ _ _ Hlookup) as Hlt.
  destruct (decide (q = part_id)) as [->|Hne].
  - rewrite list_lookup_insert_eq by done. unfold TupleIdSequence.set.
    split.
    + intros (s & [= <-] & Hin). apply elem_of_union in Hin as [Hin|Hin].
      * apply elem_of_singleton in Hin. by right.
      * left. by exists sequence.
    + intros [(s & Hs & Hin)|[_ ->]]; eexists; (split; [done|]).
      * simplify_eq. set_solver.
      * set_solver.
  - rewrite list_lookup_insert_ne by done. split; [by left|].
    intros [?|[? _]]; done.
Qed.

(** What the classification adds to the membership sets. *)
Lemma classify_member d rows pm :
  Forall (λ row, ∃ part_id,
            getPartitionId d row.2 = Some part_id ∧ part_id < length pm) rows →
  ∃ pm',
    classify d rows pm = Some pm'
    ∧ length pm' = length pm
    ∧ ∀ part_id position,
        member pm' part_id position ↔
        member pm part_id position
        ∨ ∃ tuple, (position, tuple) ∈ rows
                   ∧ getPartitionId d tuple = Some part_id.
Proof.
  revert pm. induction rows as [|[position0 tuple0] rest IH]; intros pm Hrows.
  - exists pm. split; [done|]. split; [done|].
    intros part_id position. split; [by left|].
    intros [?|(tuple & Hin & _)]; [done|]. by apply elem_of_nil in Hin.
  - apply Forall_cons in Hrows as [(p0 & Hp0 & Hlt) Hrest]. simpl in *.
    rewrite Hp0. simpl.
    destruct (set_member_is_Some pm p0 position0 Hlt) as [pm1 Hset].
    rewrite Hset. simpl.
    pose proof (set_member_length _ _ _ _ Hset) as Hlen1.
    destruct (IH pm1) as (pm' & Hclassify & Hlen & Hmember).
    { rewrite Hlen1. exact Hrest. }
    exists pm'. split; [done|]. split; [congruence|].
    intros part_id position. rewrite Hmember.
    rewrite (set_member_member _ _ _ _ part_id position Hset).
    split.
    + intros [[?|[-> ->]]|(tuple & Hin & Hp)].
      * by left.
      * right. exists tuple0. split; [apply elem_of_cons; by left|done].
      * right. exists tuple. split; [apply elem_of_cons; by right|done].
    + intros [?|(tuple & Hin & Hp)]; [by left; left|].
      apply elem_of_cons in Hin as [[= -> ->]|Hin].
      * left. right. split; congruence.
      * right. by exists tuple.
Qed.

(** C2. The partition a tuple is routed to is the partition the scheme
    header computes from the values of the partitioning attributes of the
    tuple when the list of partitioning attributes is not empty, and the
    cached input_partition_id_ (the value last given to setInputPartitionId)
    when it is empty. setPartitionMembership classifies the rows of a bulk
    insert by the same rule: a row is added to the membership set of
    partition p exactly when getPartitionId gives p for it. *)
Theorem PartitionAware_routing d tuple accessor pm :
  Forall (λ a, is_Some (getAttributeValue tuple a)) (attribute_ids d) →
  Forall (λ row, ∃ part_id,
            getPartitionId d row.2 = Some part_id ∧ part_id < length pm)
         (pending accessor) →
  (∃ values,
     Forall2 (λ a v, getAttributeValue tuple a = Some v)
             (attribute_ids d) values
     ∧ getPartitionId d tuple =
         Some (match attribute_ids d with
               | [] => input_partition_id_ d
               | _ => partitionOf d values
               end)
     ∧ ∀ input_partition_id,
         getPartitionId (setInputPartitionId d input_partition_id) tuple =
           Some (match attribute_ids d with
                 | [] => input_partition_id
                 | _ => partitionOf d values
                 end))
  ∧ ∃ pm',
      setPartitionMembership d pm accessor = Some pm'
      ∧ length pm' = length pm
      ∧ ∀ part_id position,
          member pm' part_id position ↔
          member pm part_id position
          ∨ ∃ tuple', (position, tuple') ∈ pending accessor
                      ∧ getPartitionId d tuple' = Some part_id.
Proof.
  intros Htuple Hrows. split.
  - assert (is_Some (mapM (getAttributeValue tuple) (attribute_ids d)))
      as [values Hvalues].
    { apply mapM_is_Some. eapply Forall_impl; [exact Htuple|]. done. }
    exists values. split; [by apply mapM_Some|]. split.
    + by apply getPartitionId_of_values.
    + intros input_partition_id.
      by rewrite (getPartitionId_of_values _ _ values).
  - rewrite setPartitionMembership_classify. by apply classify_member.
Qed.

Lemma getPartiallyFilledBlocksInPartition_keeps d
    (partial_blocks : list MutableBlockReference)
    (part_ids : list partition_id) part_id r :
  getPartiallyFilledBlocksInPartition d partial_blocks part_ids part_id =
    Some r →
  partition_scheme_header_ r.1.1 = partition_scheme_header_ d
  ∧ input_partition_id_ r.1.1 = input_partition_id_ d.
Proof.
  unfold getPartiallyFilledBlocksInPartition.
  destruct (available_block_refs_ d !! part_id) as [refs|]; simpl; [|done].
  destruct (move_refs refs part_id partial_blocks part_ids)
    as [partial_blocks' part_ids'].
  intros [= <-]. done.
Qed.

Lemma for_each_partition_keeps count part_id d
    (partial_blocks : list MutableBlockReference)
    (part_ids : list partition_id) r :
  for_each_partition count part_id d partial_blocks part_ids = Some r →
  partition_scheme_header_ r.1.1 = partition_scheme_header_ d
  ∧ input_partition_id_ r.1.1 = input_partition_id_ d.
Proof.
  revert part_id d partial_blocks part_ids.
  induction count as [|count IH]; intros part_id d partial_blocks part_ids;
    simpl.
  - intros [= <-]. done.
  - destruct (getPartiallyFilledBlocksInPartition d partial_blocks part_ids
                part_id) as [[[d1 partial_blocks1] part_ids1]|] eqn:Hstep;
      simpl; [|done].
    intros Hrest. apply IH in Hrest as [-> ->].
    by apply getPartiallyFilledBlocksInPartition_keeps in Hstep.
Qed.

Lemma call_keeps_header d c d' :
  call d c = Some d' → partition_scheme_header_ d' = partition_scheme_header_ d.
Proof.
  destruct c as [bid part_id|input_partition_id|partial_blocks part_ids]; simpl.
  - unfold addBlockToPool.
    destruct (available_block_ids_ d !! part_id); simpl; [|done].
    intros [= <-]. done.
  - intros [= <-]. done.
  - unfold getPartiallyFilledBlocks.
    destruct (for_each_partition _ 0 d partial_blocks part_ids) as [r|] eqn:Hr;
      simpl; [|done].
    intros [= <-]. by apply for_each_partition_keeps in Hr as [? _].
Qed.

Lemma call_keeps_input_partition_id d c d' :
  is_setInputPartitionId c = false →
  call d c = Some d' → input_partition_id_ d' = input_partition_id_ d.
Proof.
  destruct c as [bid part_id|input_partition_id|partial_blocks part_ids]; simpl;
    [|done|]; intros _.
  - unfold addBlockToPool.
    destruct (available_block_ids_ d !! part_id); simpl; [|done].
    intros [= <-]. done.
  - unfold getPartiallyFilledBlocks.
    destruct (for_each_partition _ 0 d partial_blocks part_ids) as [r|] eqn:Hr;
      simpl; [|done].
    intros [= <-]. by apply for_each_partition_keeps in Hr as [_ ?].
Qed.

Lemma calls_keep d cs d' :
  Forall (λ c, is_setInputPartitionId c = false) cs →
  calls d cs = Some d' →
  partition_scheme_header_ d' = partition_scheme_header_ d
  ∧ input_partition_id_ d' = input_partition_id_ d.
Proof.
  revert d. induction cs as [|c cs IH]; intros d Hcs; simpl.
  - intros; by simplify_eq.
  - apply Forall_cons in Hcs as [Hc Hcs].
    destruct (call d c) as [d1|] eqn:Hcall; simpl; [|done].
    intros Hrest. destruct (IH d1 Hcs Hrest) as [-> ->].
    split; [by eapply call_keeps_header|by eapply call_keeps_input_partition_id].
Qed.

(** C10. A PartitionAware destination whose list of partitioning attributes
    is empty routes every tuple to partition 0 as long as
    setInputPartitionId has not been called: input_partition_id_ is 0 from
    the construction on, and the other members leave it alone. The rows of
    a bulk insert all go to the membership set of partition 0. *)
Theorem PartitionAware_default_input_partition
    (header : PartitionSchemeHeader.t) (thread_id_map : ClientIDMap)
    (relation : CatalogRelationSchema) (layout : StorageBlockLayout)
    (partitions : list (list block_id)) (relational_op_index query_id : N)
    (scheduler_client_id : tmb.client_id) (cs : list Call) d :
  PartitionSchemeHeader.getPartitionAttributeIds header = [] →
  Forall (λ c, is_setInputPartitionId c = false) cs →
  calls (new header thread_id_map relation layout partitions
             relational_op_index query_id scheduler_client_id) cs = Some d →
  input_partition_id_ d = 0
  ∧ (∀ tuple, getPartitionId d tuple = Some 0)
  ∧ ∀ pm accessor,
      0 < length pm →
      ∃ pm',
        setPartitionMembership d pm accessor = Some pm'
        ∧ ∀ part_id position,
            member pm' part_id position ↔
            member pm part_id position
            ∨ (part_id = 0 ∧ position ∈ (fst <$> pending accessor)).
Proof.
  intros Hempty Hcs Hcalls.
  destruct (calls_keep _ _ _ Hcs Hcalls) as [Hheader Hinput]. simpl in *.
  assert (Hroute : ∀ tuple, getPartitionId d tuple = Some 0).
  { intros tuple. rewrite getPartitionId_no_attributes; [by rewrite Hinput|].
    by rewrite Hheader. }
  split; [done|]. split; [done|].
  intros pm accessor Hpm.
  rewrite setPartitionMembership_classify.
  destruct (classify_member d (pending accessor) pm)
    as (pm' & Hclassify & _ & Hmember).
  { apply Forall_forall. intros row _. exists 0. by rewrite Hroute. }
  exists pm'. split; [done|].
  intros part_id position. rewrite Hmember. apply or_iff_compat_l.
  split.
  - intros (tuple & Hin & Hp). rewrite Hroute in Hp. simplify_eq.
    split; [done|]. apply list_elem_of_fmap. by exists (position, tuple).
  - intros [-> Hin]. apply list_elem_of_fmap in Hin as ([pos tuple] & -> & Hin).
    exists tuple. by rewrite Hroute.
Qed.

End PartitionAwareRouting.

(** Scenario: two partitions by id mod 2; the rows at the positions 0, 1, 2
    go to the membership sets {0, 2} and {1}. *)
Example setPartitionMembership_mod2 :
  PartitionAwareInsertDestination.setPartitionMembership
    (Sample.partitioned Sample.mod2 [[]; []])
    Sample.no_members Sample.three_rows =
  Some [ ({[ 0%Z; 2%Z ]} : gset tuple_id); ({[ 1%Z ]} : gset tuple_id) ].
Proof. vm_compute. reflexivity. Qed.

(** Scenario: no partitioning attributes and setInputPartitionId(3); a
    tuple is routed to partition 3 whatever it holds. *)
Example getPartitionId_passthrough_3 :
  PartitionAwareInsertDestination.getPartitionId
    (PartitionAwareInsertDestination.setInputPartitionId
       (Sample.partitioned Sample.passthrough [[]; []; []; []]) 3)
    Sample.tuple3 = Some 3.
Proof. reflexivity. Qed.

Lemma PartitionAware_routing_witness :
  Forall (λ a, is_Some (getAttributeValue Sample.tuple3 a))
    (PartitionSchemeHeader.getPartitionAttributeIds
       (PartitionAwareInsertDestination.partition_scheme_header_
          (Sample.partitioned Sample.mod2 [[]; []])))
  ∧ Forall (λ row, ∃ part_id,
              PartitionAwareInsertDestination.getPartitionId
                (Sample.partitioned Sample.mod2 [[]; []]) row.2 = Some part_id
              ∧ part_id < length Sample.no_members)
           (pending Sample.three_rows)
  ∧ (∃ values,
       Forall2 (λ a v, getAttributeValue Sample.tuple3 a = Some v) [0%Z] values
       ∧ PartitionAwareInsertDestination.getPartitionId
           (Sample.partitioned Sample.mod2 [[]; []]) Sample.tuple3 =
         Some (PartitionSchemeHeader.getPartitionId Sample.mod2 values))
  ∧ ∃ pm',
      PartitionAwareInsertDestination.setPartitionMembership
        (Sample.partitioned Sample.mod2 [[]; []])
        Sample.no_members Sample.three_rows = Some pm'
      ∧ length pm' = 2.
Proof.
  assert (H1 : Forall (λ a, is_Some (getAttributeValue Sample.tuple3 a))
                 (PartitionSchemeHeader.getPartitionAttributeIds
                    (PartitionAwareInsertDestination.partition_scheme_header_
                       (Sample.partitioned Sample.mod2 [[]; []])))).
  { simpl. apply Forall_cons_2; [by eexists|]. apply Forall_nil_2. }
  assert (H2 : Forall (λ row, ∃ part_id,
                  PartitionAwareInsertDestination.getPartitionId
                    (Sample.partitioned Sample.mod2 [[]; []]) row.2 =
                    Some part_id
                  ∧ part_id < length Sample.no_members)
                 (pending Sample.three_rows)).
  { simpl.
    repeat (apply Forall_cons_2; [eexists; split; [reflexivity|vm_compute; lia]|]).
    apply Forall_nil_2. }
  destruct (@PartitionAware_routing Sample.collaborators
              (Sample.partitioned Sample.mod2 [[]; []])
              Sample.tuple3 Sample.three_rows Sample.no_members H1 H2)
    as [(values & Hvalues & Hroute & _) (pm' & Hset & Hlen & _)].
  split; [exact H1|]. split; [exact H2|]. split.
  - exists values. split; [exact Hvalues|exact Hroute].
  - exists pm'. split; [exact Hset|exact Hlen].
Defined.

Lemma PartitionAware_default_input_partition_witness :
  PartitionSchemeHeader.getPartitionAttributeIds Sample.passthrough = []
  ∧ Forall (λ c, PartitionAwareInsertDestination.is_setInputPartitionId c = false)
           Sample.some_calls
  ∧ ∃ d,
      PartitionAwareInsertDestination.calls
        (Sample.partitioned Sample.passthrough [[]; []; []; []])
        Sample.some_calls = Some d
      ∧ PartitionAwareInsertDestination.input_partition_id_ d = 0
      ∧ ∀ tuple,
          PartitionAwareInsertDestination.getPartitionId d tuple = Some 0.
Proof.
  assert (H2 : Forall (λ c, PartitionAwareInsertDestination.is_setInputPartitionId c = false)
                 Sample.some_calls).
  { simpl. repeat (apply Forall_cons_2; [reflexivity|]). apply Forall_nil_2. }
  split; [reflexivity|]. split; [exact H2|].
  eexists. split; [reflexivity|].
  destruct (@PartitionAware_default_input_partition Sample.collaborators
              Sample.passthrough
              ({[ 11 := 21%N ]} : gmap thread_id tmb.client_id)
              Sample.relation () [[]; []; []; []] 2%N 9%N 1%N
              Sample.some_calls _ eq_refl H2 eq_refl)
    as (Hinput & Hroute & _).
  split; [exact Hinput|exact Hroute].
Defined.

(** * Further properties *)

(** ** The pipeline notification, outcome by outcome *)

Section NotificationOutcomes.
Context `{!Collaborators}.

Implicit Types (d : InsertDestination.t) (w : World)
  (block : block_id * partition_id).

Lemma SendTMBMessage_frame sender receiver msg w :
  storage (QueryExecutionUtil.SendTMBMessage sender receiver msg w).2 = storage w
  ∧ this_thread (QueryExecutionUtil.SendTMBMessage sender receiver msg w).2 =
      this_thread w
  ∧ bus (QueryExecutionUtil.SendTMBMessage sender receiver msg w).2 =
      (Send (bus w) sender receiver msg).2.
Proof.
  unfold QueryExecutionUtil.SendTMBMessage.
  by destruct (Send (bus w) sender receiver msg) as [status bus'].
Qed.

Lemma sendBlockFilledMessage_unserialisable d (id : block_id)
    (part_id : partition_id) w :
  let proto := InsertDestination.DataPipelineMessage_of d id part_id in
  SerializeToArray proto (ByteSize proto) = None →
  InsertDestination.sendBlockFilledMessage d id part_id w =
    Aborted (CheckFailed "proto.SerializeToArray(proto_bytes, proto_length)") w.
Proof.
  intros proto Hser. unfold InsertDestination.sendBlockFilledMessage.
  fold proto. by rewrite Hser.
Qed.

(** The world after a call whose record serialises to [proto_bytes]: the
    world after the one send, whatever the status was. *)
Lemma sendBlockFilledMessage_final_world d (id : block_id)
    (part_id : partition_id) w (proto_bytes : list Byte.byte) :
  let proto := InsertDestination.DataPipelineMessage_of d id part_id in
  SerializeToArray proto (ByteSize proto) = Some proto_bytes →
  final_world (InsertDestination.sendBlockFilledMessage d id part_id w) =
    (QueryExecutionUtil.SendTMBMessage
       (getValue (InsertDestination.thread_id_map_ d) (this_thread w))
       (InsertDestination.scheduler_client_id_ d)
       {| tmb.message := proto_bytes;
          tmb.message_bytes := ByteSize proto;
          tmb.message_type := kDataPipelineMessage |} w).2.
Proof.
  intros proto Hser.
  rewrite (sendBlockFilledMessage_unfold d id part_id w proto_bytes Hser).
  cbv zeta. by case_decide.
Qed.

(** X1. The bus is called exactly when the record serialises. When
    SerializeToArray fails, and only then, the call aborts on the first
    CHECK in the world it started in, so the trace of the calls to the
    collaborators is left as it was, and only then is it left as it was.
    When the record serialises the bus is called once: the bus is left in
    the state this send puts it in and the trace grows by this send with
    the status the bus answered. *)
Theorem sendBlockFilledMessage_calls_bus_iff_serialises d (id : block_id)
    (part_id : partition_id) w :
  let proto := InsertDestination.DataPipelineMessage_of d id part_id in
  let sender := getValue (InsertDestination.thread_id_map_ d) (this_thread w) in
  let receiver := InsertDestination.scheduler_client_id_ d in
  let outcome := InsertDestination.sendBlockFilledMessage d id part_id w in
  (SerializeToArray proto (ByteSize proto) = None
   ↔ outcome =
       Aborted (CheckFailed "proto.SerializeToArray(proto_bytes, proto_length)") w)
  ∧ (SerializeToArray proto (ByteSize proto) = None
     ↔ trace (final_world outcome) = trace w)
  ∧ ∀ proto_bytes,
      SerializeToArray proto (ByteSize proto) = Some proto_bytes →
      bus (final_world outcome) =
        (Send (bus w) sender receiver
           {| tmb.message := proto_bytes;
              tmb.message_bytes := ByteSize proto;
              tmb.message_type := kDataPipelineMessage |}).2
      ∧ trace (final_world outcome) =
          trace w ++
            [EvSend sender receiver
               {| tmb.message := proto_bytes;
                  tmb.message_bytes := ByteSize proto;
                  tmb.message_type := kDataPipelineMessage |}
               (Send (bus w) sender receiver
                  {| tmb.message := proto_bytes;
                     tmb.message_bytes := ByteSize proto;
                     tmb.message_type := kDataPipelineMessage |}).1].
Proof.
  intros proto sender receiver outcome. subst outcome.
  destruct (SerializeToArray proto (ByteSize proto)) as [proto_bytes|] eqn:Hser.
  - pose proof (sendBlockFilledMessage_final_world d id part_id w proto_bytes Hser)
      as Hfinal.
    pose proof (sendBlockFilledMessage_unfold d id part_id w proto_bytes Hser)
      as Hstep.
    cbv zeta in Hfinal, Hstep. fold proto sender receiver in Hfinal, Hstep.
    split; [|split].
    + split; [done|]. rewrite Hstep. by case_decide.
    + split; [done|]. rewrite Hfinal, SendTMBMessage_trace.
      intros Htrace. apply (f_equal length) in Htrace.
      rewrite length_app in Htrace. simpl in Htrace. lia.
    + intros proto_bytes' [= <-]. rewrite Hfinal.
      destruct (SendTMBMessage_frame sender receiver
                  {| tmb.message := proto_bytes;
                     tmb.message_bytes := ByteSize proto;
                     tmb.message_type := kDataPipelineMessage |} w)
        as (_ & _ & Hbus).
      split; [exact Hbus|].
      by rewrite SendTMBMessage_trace, SendTMBMessage_status.
  - rewrite (sendBlockFilledMessage_unserialisable d id part_id w Hser).
    split; [done|]. split; [done|]. intros proto_bytes Hsome. discriminate.
Qed.

(** X2. Whatever its outcome, sendBlockFilledMessage leaves the storage
    manager and the identity of the executing thread as they were, and
    creates no block: it only talks to the bus. *)
Theorem sendBlockFilledMessage_only_talks_to_bus d (id : block_id)
    (part_id : partition_id) w :
  storage (final_world (InsertDestination.sendBlockFilledMessage d id part_id w)) =
    storage w
  ∧ this_thread
      (final_world (InsertDestination.sendBlockFilledMessage d id part_id w)) =
    this_thread w
  ∧ creations
      (trace (final_world (InsertDestination.sendBlockFilledMessage d id part_id w))) =
    creations (trace w).
Proof.
  destruct (SerializeToArray (InsertDestination.DataPipelineMessage_of d id part_id)
              (ByteSize (InsertDestination.DataPipelineMessage_of d id part_id)))
    as [proto_bytes|] eqn:Hser.
  - rewrite (sendBlockFilledMessage_final_world d id part_id w proto_bytes Hser).
    rewrite SendTMBMessage_trace, creations_app. simpl. rewrite app_nil_r.
    split; [|split]; [apply SendTMBMessage_frame..|done].
  - by rewrite (sendBlockFilledMessage_unserialisable d id part_id w Hser).
Qed.

(** X3. A call that returns has serialised the record, the bus has answered
    OK to the one send, and the world it returns in differs from the one it
    started in by that send only. *)
Theorem sendBlockFilledMessage_returned d (id : block_id)
    (part_id : partition_id) w w' :
  InsertDestination.sendBlockFilledMessage d id part_id w = Returned () w' →
  ∃ proto_bytes,
    let proto := InsertDestination.DataPipelineMessage_of d id part_id in
    let msg := {| tmb.message := proto_bytes;
                  tmb.message_bytes := ByteSize proto;
                  tmb.message_type := kDataPipelineMessage |} in
    SerializeToArray proto (ByteSize proto) = Some proto_bytes
    ∧ Send (bus w)
           (getValue (InsertDestination.thread_id_map_ d) (this_thread w))
           (InsertDestination.scheduler_client_id_ d) msg = (tmb.kOK, bus w')
    ∧ trace w' = trace w ++ [notification d w (id, part_id) proto_bytes tmb.kOK]
    ∧ storage w' = storage w
    ∧ this_thread w' = this_thread w.
Proof.
  intros Hreturned.
  destruct (SerializeToArray (InsertDestination.DataPipelineMessage_of d id part_id)
              (ByteSize (InsertDestination.DataPipelineMessage_of d id part_id)))
    as [proto_bytes|] eqn:Hser.
  - exists proto_bytes. cbv zeta. split; [done|].
    pose proof (sendBlockFilledMessage_final_world d id part_id w proto_bytes Hser)
      as Hfinal.
    pose proof (sendBlockFilledMessage_returns_only_on_kOK
                  d id part_id w w' proto_bytes Hser Hreturned) as Hok.
    rewrite Hreturned in Hfinal. simpl in Hfinal, Hok.
    match type of Hfinal with
    | _ = (QueryExecutionUtil.SendTMBMessage ?s ?r ?m w).2 =>
        pose proof (SendTMBMessage_trace s r m w) as Htrace;
        pose proof (SendTMBMessage_status s r m w) as Hstatus;
        destruct (SendTMBMessage_frame s r m w) as (Hstorage & Hthread & Hbus)
    end.
    rewrite <- Hfinal in Htrace, Hstorage, Hthread, Hbus.
    rewrite Hok in Hstatus.
    split; [|split; [|done]].
    + apply injective_projections; simpl; [exact Hok|by rewrite Hbus].
    + rewrite Htrace, Hstatus. reflexivity.
  - rewrite (sendBlockFilledMessage_unserialisable d id part_id w Hser)
      in Hreturned.
    discriminate.
Qed.

Lemma notification_same_thread d w w1 block proto_bytes status :
  this_thread w1 = this_thread w →
  notification d w1 block proto_bytes status =
  notification d w block proto_bytes status.
Proof. intros Hthread. unfold notification. by rewrite Hthread. Qed.

(** The run of notifications does to the world what [announce] says. *)
Lemma notify_all_announce d (blocks : list (block_id * partition_id)) w :
  final_world (notify_all d blocks w) =
    {| bus := (announce d (this_thread w) (bus w) blocks).1.2;
       storage := storage w;
       this_thread := this_thread w;
       trace := trace w ++ (announce d (this_thread w) (bus w) blocks).1.1 |}
  ∧ if (announce d (this_thread w) (bus w) blocks).2
    then notify_all d blocks w =
           Returned () (final_world (notify_all d blocks w))
    else ∃ f, notify_all d blocks w =
                Aborted f (final_world (notify_all d blocks w)).
Proof.
  revert w. induction blocks as [|block rest IH]; intros w.
  - simpl. rewrite app_nil_r. by destruct w.
  - cbn [notify_all announce]. unfold bind.
    destruct (SerializeToArray
                (InsertDestination.DataPipelineMessage_of d block.1 block.2)
                (ByteSize (InsertDestination.DataPipelineMessage_of d block.1 block.2)))
      as [proto_bytes|] eqn:Hser.
    + rewrite (sendBlockFilledMessage_unfold d block.1 block.2 w proto_bytes Hser).
      cbv zeta. unfold QueryExecutionUtil.SendTMBMessage.
      destruct (Send (bus w) _ _ _) as [status b1]. simpl.
      case_decide as Hstatus; simpl.
      * match goal with
        | |- context [notify_all d rest ?w1] =>
            destruct (IH w1) as [Hworld Houtcome]
        end.
        simpl in Hworld, Houtcome. rewrite Hworld.
        split; [by rewrite <- app_assoc|].
        destruct (announce d (this_thread w) b1 rest).2.
        -- rewrite Houtcome at 1. by rewrite Hworld.
        -- destruct Houtcome as [f Hf]. exists f.
           rewrite Hf at 1. simpl. by rewrite <- Hworld, Hf.
      * split; [done|]. by eexists.
    + rewrite (sendBlockFilledMessage_unserialisable d block.1 block.2 w Hser).
      simpl. rewrite app_nil_r. split; [by destruct w|]. by eexists.
Qed.

(** The sends of [announce] are those of a prefix of the blocks, in their
    order; every send before the last is answered OK; and the run either
    announces every block with the answer OK, or ends at a send that is
    not answered OK or before a record that does not serialise. *)
Lemma announce_stops_at_failure d w (b : MessageBus)
    (blocks : list (block_id * partition_id)) :
  let events := (announce d (this_thread w) b blocks).1.1 in
  sends_for_prefix d w blocks events
  ∧ (∀ i e, events !! i = Some e → S i < length events →
            status_of e = Some tmb.kOK)
  ∧ if (announce d (this_thread w) b blocks).2
    then length events = length blocks
         ∧ Forall (λ e, status_of e = Some tmb.kOK) events
    else (∃ e status, last events = Some e ∧ status_of e = Some status
                      ∧ status ≠ tmb.kOK)
         ∨ (∃ block,
              blocks !! length events = Some block
              ∧ SerializeToArray
                  (InsertDestination.DataPipelineMessage_of d block.1 block.2)
                  (ByteSize
                     (InsertDestination.DataPipelineMessage_of d block.1 block.2)) =
                None).
Proof.
  cbv zeta. revert b. induction blocks as [|block rest IH]; intros b.
  - simpl. split; [constructor|]. split; [intros i e Hi; by destruct i|done].
  - cbn [announce].
    destruct (SerializeToArray
                (InsertDestination.DataPipelineMessage_of d block.1 block.2)
                (ByteSize (InsertDestination.DataPipelineMessage_of d block.1 block.2)))
      as [proto_bytes|] eqn:Hser.
    + cbv zeta. destruct (Send b _ _ _) as [status b1]. simpl.
      destruct (decide (status = tmb.kOK)) as [Hstatus|Hstatus]; simpl.
      * destruct (IH b1) as (Hprefix & Hbefore & Hend).
        split; [|split].
        -- unfold sends_for_prefix in *. simpl. constructor; [|exact Hprefix].
           exists proto_bytes, status. split; [done|]. by destruct block.
        -- intros [|i] e Hi Hlen; simpl in Hi, Hlen.
           ++ injection Hi as <-. simpl. by rewrite Hstatus.
           ++ apply (Hbefore i e Hi). lia.
        -- destruct (announce d (this_thread w) b1 rest).2.
           ++ destruct Hend as [Hlen Hall]. split; [by rewrite Hlen|].
              constructor; [simpl; by rewrite Hstatus|done].
           ++ destruct Hend as [(e & s & Hlast & Hs & Hne)|(blk & Hblk & Hnone)].
              ** left. exists e, s. split; [|done].
                 destruct (announce d (this_thread w) b1 rest).1.1; [done|].
                 exact Hlast.
              ** right. by exists blk.
      * split; [|split].
        -- unfold sends_for_prefix. simpl. constructor; [|constructor].
           exists proto_bytes, status. split; [done|]. by destruct block.
        -- intros [|i] e Hi Hlen; simpl in Hlen; lia.
        -- left. eexists _, status. by split.
    + simpl. split; [constructor|].
      split; [intros i e Hi; by destruct i|].
      right. by exists block.
Qed.

(** X4. Notifications are sent in the order of the calls and a failure
    stops the run. A run of sendBlockFilledMessage over [blocks] leaves the
    bus in the state the sends of [announce] put it in and adds exactly
    these sends to the trace, each with the status the bus answered. They
    are the sends of a prefix of [blocks], one per block and in the same
    order, and every send before the last was answered OK. The run returns
    exactly when every block was announced with the answer OK; otherwise it
    aborts, and its last send was refused or the record of the next block
    did not serialise: no later block is announced. *)
Theorem notify_all_in_order d (blocks : list (block_id * partition_id)) w :
  let outcome := notify_all d blocks w in
  let events := (announce d (this_thread w) (bus w) blocks).1.1 in
  final_world outcome =
    {| bus := (announce d (this_thread w) (bus w) blocks).1.2;
       storage := storage w;
       this_thread := this_thread w;
       trace := trace w ++ events |}
  ∧ sends_for_prefix d w blocks events
  ∧ (∀ i e, events !! i = Some e → S i < length events →
            status_of e = Some tmb.kOK)
  ∧ if (announce d (this_thread w) (bus w) blocks).2
    then outcome = Returned () (final_world outcome)
         ∧ length events = length blocks
         ∧ Forall (λ e, status_of e = Some tmb.kOK) events
    else (∃ f, outcome = Aborted f (final_world outcome))
         ∧ ((∃ e status, last events = Some e ∧ status_of e = Some status
                         ∧ status ≠ tmb.kOK)
            ∨ (∃ block,
                 blocks !! length events = Some block
                 ∧ SerializeToArray
                     (InsertDestination.DataPipelineMessage_of d block.1 block.2)
                     (ByteSize
                        (InsertDestination.DataPipelineMessage_of d block.1 block.2)) =
                   None)).
Proof.
  cbv zeta.
  destruct (notify_all_announce d blocks w) as [Hworld Houtcome].
  destruct (announce_stops_at_failure d w (bus w) blocks)
    as (Hprefix & Hbefore & Hend).
  cbv zeta in Hprefix, Hbefore, Hend.
  split; [exact Hworld|]. split; [exact Hprefix|]. split; [exact Hbefore|].
  destruct (announce d (this_thread w) (bus w) blocks).2.
  - destruct Hend as [Hlen Hall]. by split.
  - by split.
Qed.

End NotificationOutcomes.

Lemma sendBlockFilledMessage_returned_witness :
  ∃ w',
    @InsertDestination.sendBlockFilledMessage Sample.collaborators
      (Sample.base InsertDestination.kBlockPoolInsertDestination)
      5%N 1 (Sample.world true) = Returned () w'
    ∧ ∃ proto_bytes,
        @SerializeToArray Sample.collaborators (Sample.proto 5%N 1) 5 =
          Some proto_bytes
        ∧ Sample.send (bus (Sample.world true)) 21%N 1%N
            {| tmb.message := proto_bytes; tmb.message_bytes := 5;
               tmb.message_type := 3%N |} = (tmb.kOK, bus w')
        ∧ trace w' =
            [EvSend 21%N 1%N
               {| tmb.message := proto_bytes; tmb.message_bytes := 5;
                  tmb.message_type := 3%N |} tmb.kOK]
        ∧ storage w' = []
        ∧ this_thread w' = 11.
Proof.
  eexists. split; [reflexivity|].
  exact (@sendBlockFilledMessage_returned Sample.collaborators
           (Sample.base InsertDestination.kBlockPoolInsertDestination)
           5%N 1 (Sample.world true) _ eq_refl).
Defined.


(** ** PartitionAwareInsertDestination: the pools *)

Section PartitionAwarePools.
Context `{!Collaborators}.

Import PartitionAwareInsertDestination.

Implicit Types (d : t) (refs : list MutableBlockReference)
  (v pre : list (list MutableBlockReference))
  (partial_blocks : list MutableBlockReference)
  (part_ids : list partition_id) (part_id : partition_id)
  (adds : list (block_id * partition_id)).

Lemma addBlockToPool_Some d bid part_id d' :
  addBlockToPool d bid part_id = Some d' →
  ∃ ids,
    available_block_ids_ d !! part_id = Some ids
    ∧ d' = {| base := base d;
              partition_scheme_header_ := partition_scheme_header_ d;
              available_block_refs_ := available_block_refs_ d;
              available_block_ids_ :=
                <[part_id := ids ++ [bid]]> (available_block_ids_ d);
              done_block_ids_ := done_block_ids_ d;
              input_partition_id_ := input_partition_id_ d |}.
Proof.
  unfold addBlockToPool.
  destruct (available_block_ids_ d !! part_id) as [ids|]; simpl; [|done].
  intros [= <-]. by exists ids.
Qed.

Lemma added_to_cons_eq part_id bid adds :
  added_to part_id ((bid, part_id) :: adds) = bid :: added_to part_id adds.
Proof. unfold added_to. rewrite filter_cons_True by done. done. Qed.

Lemma added_to_cons_ne part_id q bid adds :
  q ≠ part_id → added_to q ((bid, part_id) :: adds) = added_to q adds.
Proof.
  intros Hne. unfold added_to. rewrite filter_cons_False; [done|].
  simpl. congruence.
Qed.

(** X5. addBlockToPool keeps the order of the calls within a partition and
    touches nothing else: after the blocks [adds] have been added, the ids
    waiting in a partition are those it had followed by the blocks added to
    it, in the order they were added; the number of partitions, the
    references, the done blocks and the input partition id are as before. *)
Theorem addBlockToPool_keeps_call_order d adds d' :
  calls d (add_calls adds) = Some d' →
  (∀ q, available_block_ids_ d' !! q =
        (λ ids, ids ++ added_to q adds) <$> available_block_ids_ d !! q)
  ∧ length (available_block_ids_ d') = length (available_block_ids_ d)
  ∧ available_block_refs_ d' = available_block_refs_ d
  ∧ done_block_ids_ d' = done_block_ids_ d
  ∧ input_partition_id_ d' = input_partition_id_ d.
Proof.
  revert d. induction adds as [|[bid part_id] adds IH]; intros d; simpl.
  - intros [= <-]. split; [|done]. intros q.
    destruct (available_block_ids_ d !! q); simpl; [|done].
    by rewrite app_nil_r.
  - destruct (addBlockToPool d bid part_id) as [d1|] eqn:Hadd; simpl; [|done].
    intros Hrest.
    destruct (IH d1 Hrest) as (Hids & Hlen & Hrefs & Hdone & Hinput).
    apply addBlockToPool_Some in Hadd as (ids & Hlookup & ->). simpl in *.
    rewrite length_insert in Hlen.
    split; [|done]. intros q. rewrite Hids.
    destruct (decide (q = part_id)) as [->|Hne].
    + rewrite list_lookup_insert_eq by (by eapply lookup_lt_Some).
      rewrite Hlookup. simpl. rewrite added_to_cons_eq.
      by rewrite <- app_assoc.
    + rewrite list_lookup_insert_ne by done.
      by rewrite added_to_cons_ne.
Qed.

(** The loop over the partitions on the vectors of references alone. *)
Lemma for_each_partition_through (f : t → t) count part_id d
    partial_blocks part_ids :
  (∀ d, available_block_refs_ (f d) = available_block_refs_ d) →
  (∀ d v, with_available_block_refs (f d) v = f (with_available_block_refs d v)) →
  for_each_partition count part_id (f d) partial_blocks part_ids =
  (λ r, (f r.1.1, r.1.2, r.2))
    <$> for_each_partition count part_id d partial_blocks part_ids.
Proof.
  intros Hrefs Hwith. revert part_id d partial_blocks part_ids.
  induction count as [|count IH]; intros part_id d partial_blocks part_ids;
    [done|].
  simpl. unfold getPartiallyFilledBlocksInPartition. rewrite Hrefs.
  destruct (available_block_refs_ d !! part_id) as [refs|]; simpl; [|done].
  destruct (move_refs refs part_id partial_blocks part_ids)
    as [partial_blocks1 part_ids1].
  rewrite Hwith. apply IH.
Qed.

Lemma for_each_partition_keeps_ids count part_id d partial_blocks part_ids r :
  for_each_partition count part_id d partial_blocks part_ids = Some r →
  available_block_ids_ r.1.1 = available_block_ids_ d.
Proof.
  revert part_id d partial_blocks part_ids.
  induction count as [|count IH]; intros part_id d partial_blocks part_ids;
    simpl.
  - intros [= <-]. done.
  - unfold getPartiallyFilledBlocksInPartition.
    destruct (available_block_refs_ d !! part_id) as [refs|]; simpl; [|done].
    destruct (move_refs refs part_id partial_blocks part_ids)
      as [partial_blocks1 part_ids1].
    intros Hrest. by apply IH in Hrest.
Qed.

(** X6. Draining commutes with the bookkeeping calls: setting the input
    partition id or adding a block id to a pool before a drain gives the
    same output vectors, and the same destination, as doing it after the
    drain. Block ids that wait in a pool are never handed out as partially
    filled blocks. *)
Theorem getPartiallyFilledBlocks_commutes d (bid : block_id) part_id
    (input_partition_id : partition_id) partial_blocks part_ids :
  getPartiallyFilledBlocks (setInputPartitionId d input_partition_id)
    partial_blocks part_ids =
    (λ r, (setInputPartitionId r.1.1 input_partition_id, r.1.2, r.2))
      <$> getPartiallyFilledBlocks d partial_blocks part_ids
  ∧ (d1 ← addBlockToPool d bid part_id;
     getPartiallyFilledBlocks d1 partial_blocks part_ids) =
    (r ← getPartiallyFilledBlocks d partial_blocks part_ids;
     d2 ← addBlockToPool r.1.1 bid part_id;
     Some (d2, r.1.2, r.2)).
Proof.
  split.
  - unfold getPartiallyFilledBlocks. simpl.
    by apply (for_each_partition_through
                (λ d, setInputPartitionId d input_partition_id)).
  - unfold getPartiallyFilledBlocks.
    pose (f := λ d, default d (addBlockToPool d bid part_id)).
    assert (Hthrough : ∀ count,
      for_each_partition count 0 (f d) partial_blocks part_ids =
      (λ r, (f r.1.1, r.1.2, r.2))
        <$> for_each_partition count 0 d partial_blocks part_ids).
    { intros count. apply for_each_partition_through.
      - intros d0. unfold f, addBlockToPool.
        by destruct (available_block_ids_ d0 !! part_id).
      - intros d0 v. unfold f, addBlockToPool. simpl.
        by destruct (available_block_ids_ d0 !! part_id). }
    destruct (addBlockToPool d bid part_id) as [d1|] eqn:Hadd; simpl.
    + assert (Hheader : partition_scheme_header_ d1 = partition_scheme_header_ d).
      { by apply addBlockToPool_Some in Hadd as (ids & _ & ->). }
      assert (Hd1 : d1 = f d) by (unfold f; by rewrite Hadd).
      rewrite Hheader, Hd1, Hthrough.
      destruct (for_each_partition _ 0 d partial_blocks part_ids)
        as [r|] eqn:Hdrain; simpl; [|done].
      apply for_each_partition_keeps_ids in Hdrain.
      unfold f, addBlockToPool. rewrite Hdrain.
      apply addBlockToPool_Some in Hadd as (ids & -> & _). done.
    + destruct (for_each_partition _ 0 d partial_blocks part_ids)
        as [r|] eqn:Hdrain; simpl; [|done].
      apply for_each_partition_keeps_ids in Hdrain.
      unfold addBlockToPool in *. rewrite Hdrain.
      by destruct (available_block_ids_ d !! part_id).
Qed.

Lemma aligned_with_partitions pre v :
  Forall2
    (λ ref part_id, ∃ refs, (pre ++ v) !! part_id = Some refs ∧ ref ∈ refs)
    (concat v)
    (concat (imap (λ i refs, replicate (length refs) (length pre + i)) v)).
Proof.
  revert pre. induction v as [|refs v IH]; intros pre; [constructor|].
  simpl. apply Forall2_app.
  - apply Forall2_replicate_r; [done|].
    apply Forall_forall. intros ref Hin. exists refs.
    split; [|done]. rewrite Nat.add_0_r. by apply list_lookup_middle.
  - specialize (IH (pre ++ [refs])).
    rewrite <- app_assoc in IH. simpl in IH.
    erewrite imap_ext; [exact IH|].
    intros i refs' _. simpl. f_equal. rewrite length_app. simpl. lia.
Qed.

Lemma StronglySorted_replicate (n x : nat) : StronglySorted le (replicate n x).
Proof.
  induction n as [|n IH]; simpl; constructor; [done|].
  apply Forall_forall. intros y Hy. apply elem_of_replicate in Hy as [-> _]. done.
Qed.

Lemma ascending_partitions (first : nat) v :
  StronglySorted le
    (concat (imap (λ i refs, replicate (length refs) (first + i)) v))
  ∧ Forall (λ part_id, first ≤ part_id < first + length v)
      (concat (imap (λ i refs, replicate (length refs) (first + i)) v)).
Proof.
  revert first. induction v as [|refs v IH]; intros first.
  - split; constructor.
  - simpl. destruct (IH (S first)) as [Hsorted Hrange].
    assert (Heq :
      imap ((λ i refs, replicate (length refs) (first + i)) ∘ S) v =
      imap (λ i refs, replicate (length refs) (S first + i)) v).
    { apply imap_ext. intros i refs' _. simpl. f_equal. lia. }
    rewrite Heq. split.
    + apply StronglySorted_app_2; [|apply StronglySorted_replicate|done].
      intros x1 x2 Hx1 Hx2. apply elem_of_replicate in Hx1 as [-> _].
      rewrite Forall_forall in Hrange. apply Hrange in Hx2. lia.
    + apply Forall_app. split.
      * apply Forall_forall. intros x Hx.
        apply elem_of_replicate in Hx as [-> _]. lia.
      * eapply Forall_impl; [exact Hrange|]. intros x Hx. simpl in Hx. lia.
Qed.

Lemma filter_eq_replicate (n x y : nat) :
  length (filter (λ p, p = y) (replicate n x)) = if decide (x = y) then n else 0.
Proof.
  induction n as [|n IH]; simpl; [by case_decide|].
  destruct (decide (x = y)) as [Heq|Hne].
  - rewrite filter_cons_True by done. simpl. by rewrite IH.
  - by rewrite filter_cons_False.
Qed.

Lemma filter_eq_none (y : nat) (l : list nat) :
  Forall (λ x, x ≠ y) l → filter (λ p, p = y) l = [].
Proof.
  induction 1 as [|x l Hx _ IH]; [done|]. by rewrite filter_cons_False.
Qed.

Lemma count_in_partitions (first i : nat) v refs :
  v !! i = Some refs →
  length (filter (λ p, p = first + i)
            (concat (imap (λ i refs, replicate (length refs) (first + i)) v))) =
  length refs.
Proof.
  revert first i. induction v as [|refs0 v IH]; intros first i Hlookup; [done|].
  simpl.
  assert (Heq :
    imap ((λ i refs, replicate (length refs) (first + i)) ∘ S) v =
    imap (λ i refs, replicate (length refs) (S first + i)) v).
  { apply imap_ext. intros j refs' _. simpl. f_equal. lia. }
  rewrite Heq, filter_app, length_app, filter_eq_replicate.
  destruct i as [|i]; simpl in Hlookup.
  - simplify_eq. rewrite decide_True by lia.
    rewrite filter_eq_none; [simpl; lia|].
    destruct (ascending_partitions (S first) v) as [_ Hrange].
    eapply Forall_impl; [exact Hrange|]. intros x Hx. simpl in Hx. lia.
  - rewrite decide_False by lia. simpl.
    replace (first + S i) with (S first + i) by lia. by apply IH.
Qed.

(** X7. The two output vectors of getPartiallyFilledBlocks stay aligned:
    they grow by the same number of entries, and the partition id appended
    at a position is the partition in whose vector the reference appended
    at that position was stored. *)
Theorem getPartiallyFilledBlocks_aligned d partial_blocks part_ids :
  length (available_block_refs_ d) =
    PartitionSchemeHeader.getNumPartitions (partition_scheme_header_ d) →
  ∃ d' refs ids,
    getPartiallyFilledBlocks d partial_blocks part_ids =
      Some (d', partial_blocks ++ refs, part_ids ++ ids)
    ∧ length refs = length ids
    ∧ Forall2
        (λ ref part_id,
           ∃ stored, available_block_refs_ d !! part_id = Some stored
                     ∧ ref ∈ stored)
        refs ids.
Proof.
  intros Hlen. eexists _, _, _.
  split; [by apply getPartiallyFilledBlocks_drains|].
  pose proof (aligned_with_partitions [] (available_block_refs_ d)) as Haligned.
  simpl in Haligned. split; [by eapply Forall2_length|done].
Qed.

(** X8. The partition ids that getPartiallyFilledBlocks appends are in
    ascending order and are ids of partitions of the scheme, and each
    partition's id is appended once for every reference the partition
    held. *)
Theorem getPartiallyFilledBlocks_ascending d partial_blocks part_ids :
  length (available_block_refs_ d) =
    PartitionSchemeHeader.getNumPartitions (partition_scheme_header_ d) →
  ∃ d' partial_blocks' ids,
    getPartiallyFilledBlocks d partial_blocks part_ids =
      Some (d', partial_blocks', part_ids ++ ids)
    ∧ StronglySorted le ids
    ∧ Forall (λ part_id,
                part_id < PartitionSchemeHeader.getNumPartitions
                            (partition_scheme_header_ d)) ids
    ∧ ∀ part_id stored,
        available_block_refs_ d !! part_id = Some stored →
        length (filter (λ p, p = part_id) ids) = length stored.
Proof.
  intros Hlen. eexists _, _, _.
  split; [by apply getPartiallyFilledBlocks_drains|].
  destruct (ascending_partitions 0 (available_block_refs_ d))
    as [Hsorted Hrange].
  simpl in Hsorted, Hrange. split; [done|].
  split.
  - eapply Forall_impl; [exact Hrange|]. intros x Hx. simpl in Hx. lia.
  - intros part_id stored Hstored.
    exact (count_in_partitions 0 part_id _ _ Hstored).
Qed.

(** X9. getPartiallyFilledBlocksInPartition drains the one partition it is
    called for: that partition is left without references, every other
    partition keeps its own, the block ids, the done blocks and the input
    partition id are untouched, and the same call again appends nothing. *)
Theorem getPartiallyFilledBlocksInPartition_only_that_partition d
    partial_blocks part_ids part_id d' partial_blocks' part_ids' :
  getPartiallyFilledBlocksInPartition d partial_blocks part_ids part_id =
    Some (d', partial_blocks', part_ids') →
  available_block_refs_ d' !! part_id = Some []
  ∧ (∀ q, q ≠ part_id →
          available_block_refs_ d' !! q = available_block_refs_ d !! q)
  ∧ length (available_block_refs_ d') = length (available_block_refs_ d)
  ∧ available_block_ids_ d' = available_block_ids_ d
  ∧ done_block_ids_ d' = done_block_ids_ d
  ∧ input_partition_id_ d' = input_partition_id_ d
  ∧ getPartiallyFilledBlocksInPartition d' partial_blocks' part_ids' part_id =
      Some (d', partial_blocks', part_ids').
Proof.
  unfold getPartiallyFilledBlocksInPartition at 1.
  destruct (available_block_refs_ d !! part_id) as [refs|] eqn:Hrefs;
    simpl; [|done].
  rewrite move_refs_appends. intros [= <- <- <-]. simpl.
  pose proof (lookup_lt_Some _ _ _ Hrefs) as Hlt.
  split; [by apply list_lookup_insert_eq|].
  split; [intros q Hne; by apply list_lookup_insert_ne|].
  split; [apply length_insert|]. do 3 (split; [done|]).
  unfold getPartiallyFilledBlocksInPartition. simpl.
  rewrite list_lookup_insert_eq by done. simpl.
  by rewrite list_insert_insert_eq.
Qed.

End PartitionAwarePools.

Lemma addBlockToPool_keeps_call_order_witness :
  ∃ d',
    PartitionAwareInsertDestination.calls
      (Sample.partitioned Sample.mod2 [[]; []]) (add_calls Sample2.adds) =
      Some d'
    ∧ (∀ q,
         PartitionAwareInsertDestination.available_block_ids_ d' !! q =
         (λ ids, ids ++ added_to q Sample2.adds)
           <$> PartitionAwareInsertDestination.available_block_ids_
                 (Sample.partitioned Sample.mod2 [[]; []]) !! q)
    ∧ PartitionAwareInsertDestination.available_block_ids_ d' =
        [[6%N]; [5%N; 7%N]].
Proof.
  eexists. split; [reflexivity|]. split; [|reflexivity].
  exact (proj1 (@addBlockToPool_keeps_call_order Sample.collaborators
                  (Sample.partitioned Sample.mod2 [[]; []])
                  Sample2.adds _ eq_refl)).
Defined.

Lemma getPartiallyFilledBlocks_aligned_witness :
  length (PartitionAwareInsertDestination.available_block_refs_
            (Sample.partitioned Sample.mod2 [[10%N; 11%N]; [12%N]])) = 2
  ∧ ∃ d' refs ids,
      PartitionAwareInsertDestination.getPartiallyFilledBlocks
        (Sample.partitioned Sample.mod2 [[10%N; 11%N]; [12%N]]) [] [] =
        Some (d', refs, ids)
      ∧ length refs = length ids.
Proof.
  split; [reflexivity|].
  destruct (@getPartiallyFilledBlocks_aligned Sample.collaborators
              (Sample.partitioned Sample.mod2 [[10%N; 11%N]; [12%N]])
              [] [] eq_refl)
    as (d' & refs & ids & Hdrain & Hlen & _).
  exists d', refs, ids. split; [exact Hdrain|exact Hlen].
Defined.

Lemma getPartiallyFilledBlocks_ascending_witness :
  length (PartitionAwareInsertDestination.available_block_refs_
            (Sample.partitioned Sample.mod2 [[10%N; 11%N]; [12%N]])) = 2
  ∧ ∃ d' partial_blocks' ids,
      PartitionAwareInsertDestination.getPartiallyFilledBlocks
        (Sample.partitioned Sample.mod2 [[10%N; 11%N]; [12%N]]) [] [7] =
        Some (d', partial_blocks', 7 :: ids)
      ∧ StronglySorted le ids
      ∧ Forall (λ part_id, part_id < 2) ids.
Proof.
  split; [reflexivity|].
  destruct (@getPartiallyFilledBlocks_ascending Sample.collaborators
              (Sample.partitioned Sample.mod2 [[10%N; 11%N]; [12%N]])
              [] [7] eq_refl)
    as (d' & partial_blocks' & ids & Hdrain & Hsorted & Hrange & _).
  exists d', partial_blocks', ids.
  split; [exact Hdrain|]. split; [exact Hsorted|exact Hrange].
Defined.

Lemma getPartiallyFilledBlocksInPartition_only_that_partition_witness :
  @PartitionAwareInsertDestination.getPartiallyFilledBlocksInPartition
    Sample.collaborators
    (Sample.partitioned Sample.mod2 [[10%N; 11%N]; [12%N]]) [] [] 0 =
    Some (Sample.partitioned Sample.mod2 [[]; [12%N]], [10%N; 11%N], [0; 0])
  ∧ PartitionAwareInsertDestination.available_block_refs_
      (Sample.partitioned Sample.mod2 [[]; [12%N]]) !! 0 = Some []
  ∧ @PartitionAwareInsertDestination.getPartiallyFilledBlocksInPartition
      Sample.collaborators
      (Sample.partitioned Sample.mod2 [[]; [12%N]]) [10%N; 11%N] [0; 0] 0 =
      Some (Sample.partitioned Sample.mod2 [[]; [12%N]], [10%N; 11%N], [0; 0]).
Proof.
  destruct (@getPartiallyFilledBlocksInPartition_only_that_partition
              Sample.collaborators
              (Sample.partitioned Sample.mod2 [[10%N; 11%N]; [12%N]])
              [] [] 0
              (Sample.partitioned Sample.mod2 [[]; [12%N]])
              [10%N; 11%N] [0; 0] eq_refl)
    as (Hempty & _ & _ & _ & _ & _ & Hagain).
  split; [reflexivity|]. split; [exact Hempty|exact Hagain].
Defined.


(** ** PartitionAwareInsertDestination: what routing depends on *)

Section PartitionAwareRoutingInputs.
Context `{!Collaborators}.

Import PartitionAwareInsertDestination.

Implicit Types (d : t) (tuple : Tuple) (accessor : ValueAccessor)
  (pm : list TupleIdSequence.t) (rows : list (tuple_id * Tuple))
  (part_id : partition_id) (position : tuple_id).

Lemma mapM_agree {A B} (f g : A → option B) (l : list A) :
  Forall (λ x, f x = g x) l → mapM f l = mapM g l.
Proof.
  induction 1 as [|x l Hx _ IH]; [done|].
  simpl. by rewrite Hx, IH.
Qed.

(** X10. The partition of a tuple depends on its partitioning attributes
    only: two tuples with the same values for the partitioning attributes
    of the scheme are routed to the same partition, whatever their other
    attributes hold. *)
Theorem getPartitionId_reads_partition_attributes_only d tuple1 tuple2 :
  Forall (λ a, getAttributeValue tuple1 a = getAttributeValue tuple2 a)
    (PartitionSchemeHeader.getPartitionAttributeIds
       (partition_scheme_header_ d)) →
  getPartitionId d tuple1 = getPartitionId d tuple2.
Proof.
  intros Hagree. unfold getPartitionId.
  by rewrite (mapM_agree _ _ _ Hagree).
Qed.

Lemma getPartitionId_same_scheme d d' tuple :
  partition_scheme_header_ d' = partition_scheme_header_ d →
  input_partition_id_ d' = input_partition_id_ d →
  getPartitionId d' tuple = getPartitionId d tuple.
Proof. intros Hheader Hinput. unfold getPartitionId. by rewrite Hheader, Hinput. Qed.

Lemma setPartitionMembership_same_scheme d d' pm accessor :
  partition_scheme_header_ d' = partition_scheme_header_ d →
  input_partition_id_ d' = input_partition_id_ d →
  setPartitionMembership d' pm accessor = setPartitionMembership d pm accessor.
Proof.
  intros Hheader Hinput. unfold setPartitionMembership.
  by rewrite Hheader, Hinput.
Qed.

(** X11. Routing does not depend on the state of the pools: after any run
    of addBlockToPool and getPartiallyFilledBlocks calls (no
    setInputPartitionId among them) every tuple is routed as before, and a
    bulk insert is classified as before. *)
Theorem routing_stable_under_pool_calls d (cs : list Call) d' :
  Forall (λ c, is_setInputPartitionId c = false) cs →
  calls d cs = Some d' →
  (∀ tuple, getPartitionId d' tuple = getPartitionId d tuple)
  ∧ (∀ pm accessor,
       setPartitionMembership d' pm accessor =
       setPartitionMembership d pm accessor).
Proof.
  intros Hcs Hcalls.
  destruct (calls_keep _ _ _ Hcs Hcalls) as [Hheader Hinput].
  split.
  - intros tuple. by apply getPartitionId_same_scheme.
  - intros pm accessor. by apply setPartitionMembership_same_scheme.
Qed.

Lemma NoDup_fst_unique {A B} (l : list (A * B)) (x : A) (y1 y2 : B) :
  NoDup (fst <$> l) → (x, y1) ∈ l → (x, y2) ∈ l → y1 = y2.
Proof.
  induction l as [|[a b] l IH]; intros Hnodup Hin1 Hin2.
  - by apply elem_of_nil in Hin1.
  - simpl in Hnodup. apply NoDup_cons in Hnodup as [Hfresh Hnodup].
    apply elem_of_cons in Hin1 as [Hhead1|Hin1];
      apply elem_of_cons in Hin2 as [Hhead2|Hin2].
    + congruence.
    + exfalso. apply Hfresh. apply list_elem_of_fmap.
      exists (x, y2). split; [by simplify_eq|done].
    + exfalso. apply Hfresh. apply list_elem_of_fmap.
      exists (x, y1). split; [by simplify_eq|done].
    + by apply IH.
Qed.

Lemma classify_Some_routable d rows pm pm' :
  classify d rows pm = Some pm' →
  Forall (λ row, ∃ part_id,
            getPartitionId d row.2 = Some part_id ∧ part_id < length pm) rows.
Proof.
  revert pm. induction rows as [|row rest IH]; intros pm; [constructor|].
  simpl.
  destruct (getPartitionId d row.2) as [part_id|] eqn:Hroute; simpl; [|done].
  destruct (set_member pm part_id row.1) as [pm1|] eqn:Hset; simpl; [|done].
  intros Hrest. constructor.
  - exists part_id. split; [done|].
    unfold set_member in Hset.
    destruct (pm !! part_id) as [sequence|] eqn:Hlookup; [|done].
    by eapply lookup_lt_Some.
  - rewrite <- (set_member_length _ _ _ _ Hset). by apply IH.
Qed.

Lemma setPartitionMembership_Some_member d pm accessor pm' :
  setPartitionMembership d pm accessor = Some pm' →
  length pm' = length pm
  ∧ ∀ part_id position,
      member pm' part_id position ↔
      member pm part_id position
      ∨ ∃ tuple, (position, tuple) ∈ pending accessor
                 ∧ getPartitionId d tuple = Some part_id.
Proof.
  rewrite setPartitionMembership_classify. intros Hclassify.
  destruct (classify_member d (pending accessor) pm)
    as (pm1 & Hpm1 & Hlen & Hmember).
  { by eapply classify_Some_routable. }
  by simplify_eq.
Qed.

(** X12. A bulk insert is split among the partitions without loss and
    without overlap: when the membership sets start empty and the accessor
    visits each position once, every row of the accessor ends in the
    membership set of exactly one partition, and the sets hold nothing but
    rows of the accessor. *)
Theorem setPartitionMembership_partitions_the_rows d pm accessor pm' :
  (∀ part_id position, ¬ member pm part_id position) →
  NoDup (fst <$> pending accessor) →
  setPartitionMembership d pm accessor = Some pm' →
  (∀ position,
     position ∈ (fst <$> pending accessor) →
     ∃ part_id,
       member pm' part_id position
       ∧ ∀ q, member pm' q position → q = part_id)
  ∧ ∀ part_id position,
      member pm' part_id position → position ∈ (fst <$> pending accessor).
Proof.
  intros Hempty Hnodup Hset.
  destruct (setPartitionMembership_Some_member _ _ _ _ Hset) as [_ Hmember].
  pose proof Hset as Hroutable.
  rewrite setPartitionMembership_classify in Hroutable.
  apply classify_Some_routable in Hroutable.
  split.
  - intros position Hin.
    apply list_elem_of_fmap in Hin as ([position0 tuple] & -> & Hin).
    rewrite Forall_forall in Hroutable.
    destruct (Hroutable _ Hin) as (part_id & Hroute & _). simpl in *.
    exists part_id. split.
    + apply Hmember. right. by exists tuple.
    + intros q Hq. apply Hmember in Hq as [Hq|(tuple' & Hin' & Hroute')].
      * by apply Hempty in Hq.
      * assert (tuple' = tuple) as ->.
        { by eapply (NoDup_fst_unique (pending accessor) position0). }
        congruence.
  - intros part_id position Hin.
    apply Hmember in Hin as [Hin|(tuple & Hin & _)].
    + by apply Hempty in Hin.
    + apply list_elem_of_fmap. by exists (position, tuple).
Qed.

(** X13. setPartitionMembership only adds: it keeps the number of
    membership sets and every member they had, a member it adds is a
    position of the accessor, and for an accessor with no row ahead it
    returns the sets as they were. *)
Theorem setPartitionMembership_only_adds d pm accessor pm' :
  setPartitionMembership d pm accessor = Some pm' →
  length pm' = length pm
  ∧ (∀ part_id position,
       member pm part_id position → member pm' part_id position)
  ∧ (∀ part_id position,
       member pm' part_id position →
       member pm part_id position ∨ position ∈ (fst <$> pending accessor))
  ∧ (pending accessor = [] → pm' = pm).
Proof.
  intros Hset.
  destruct (setPartitionMembership_Some_member _ _ _ _ Hset) as [Hlen Hmember].
  split; [done|]. split; [|split].
  - intros part_id position Hin. apply Hmember. by left.
  - intros part_id position Hin.
    apply Hmember in Hin as [Hin|(tuple & Hin & _)]; [by left|].
    right. apply list_elem_of_fmap. by exists (position, tuple).
  - intros Hnone. rewrite setPartitionMembership_classify, Hnone in Hset.
    simpl in Hset. by simplify_eq.
Qed.

End PartitionAwareRoutingInputs.

(** ** AggregationHandleMax: merging partial states *)

Section MergeStates.
Context `{!Collaborators}.

Import AggregationHandleMax.

Variable isNull : TypedValue → bool.
Variable compareAndUpdate :
  AggregationStateMax → TypedValue → AggregationStateMax.
Variable compareAndUpdate_value : TypedValue → TypedValue → TypedValue.

(** X14. Partial states whose maximum is null do not take part in a merge:
    merging the states [sources] into a destination is compareAndUpdate
    applied to the destination with the non-null maxima of [sources], in
    their order, and the same holds for the overload on raw state
    pointers. *)
Theorem mergeStates_skips_null_sources
    (sources : list AggregationStateMax) (raw_sources : list TypedValue)
    (destination : AggregationStateMax) (raw_destination : TypedValue) :
  merge_all isNull compareAndUpdate sources destination =
    foldl compareAndUpdate destination
      (filter (λ value, isNull value = false) (max_ <$> sources))
  ∧ merge_all_bytes isNull compareAndUpdate_value raw_sources raw_destination =
    foldl compareAndUpdate_value raw_destination
      (filter (λ value, isNull value = false) raw_sources).
Proof.
  split.
  - unfold merge_all. revert destination.
    induction sources as [|source rest IH]; intros destination; [done|].
    simpl. unfold mergeStates at 2.
    destruct (isNull (max_ source)) eqn:Hnull; simpl.
    + rewrite filter_cons_False by (rewrite Hnull; done). apply IH.
    + rewrite filter_cons_True by done. simpl. apply IH.
  - unfold merge_all_bytes. revert raw_destination.
    induction raw_sources as [|source rest IH]; intros raw_destination; [done|].
    simpl. unfold mergeStates_bytes at 2.
    destruct (isNull source) eqn:Hnull; simpl.
    + rewrite filter_cons_False by (rewrite Hnull; done). apply IH.
    + rewrite filter_cons_True by done. simpl. apply IH.
Qed.

End MergeStates.

Lemma notify_all_in_order_witness :
  final_world
    (@notify_all Sample.collaborators
       (Sample.base InsertDestination.kBlockPoolInsertDestination)
       [(5%N, 1); (6%N, 0)] (Sample.world false)) =
    @Build_World Sample.collaborators
      {| Sample.connected := []; Sample.delivered := [] |} [] 11
      [EvSend 21%N 1%N
         {| tmb.message := Sample.wire (Sample.proto 5%N 1);
            tmb.message_bytes := 5;
            tmb.message_type := 3%N |} (tmb.kNotOK 1)]
  ∧ ∃ f,
      @notify_all Sample.collaborators
        (Sample.base InsertDestination.kBlockPoolInsertDestination)
        [(5%N, 1); (6%N, 0)] (Sample.world false) =
      Aborted f
        (final_world
           (@notify_all Sample.collaborators
              (Sample.base InsertDestination.kBlockPoolInsertDestination)
              [(5%N, 1); (6%N, 0)] (Sample.world false))).
Proof.
  destruct (@notify_all_in_order Sample.collaborators
              (Sample.base InsertDestination.kBlockPoolInsertDestination)
              [(5%N, 1); (6%N, 0)] (Sample.world false))
    as (Hworld & _ & _ & Hend).
  split; [exact Hworld|]. exact (proj1 Hend).
Defined.

Lemma getPartitionId_reads_partition_attributes_only_witness :
  Forall (λ a, getAttributeValue Sample2.tuple_a a =
               getAttributeValue Sample2.tuple_b a)
    (PartitionSchemeHeader.getPartitionAttributeIds
       (PartitionAwareInsertDestination.partition_scheme_header_
          (Sample.partitioned Sample.mod2 [[]; []])))
  ∧ PartitionAwareInsertDestination.getPartitionId
      (Sample.partitioned Sample.mod2 [[]; []]) Sample2.tuple_a =
    PartitionAwareInsertDestination.getPartitionId
      (Sample.partitioned Sample.mod2 [[]; []]) Sample2.tuple_b.
Proof.
  assert (Hagree :
    Forall (λ a, getAttributeValue Sample2.tuple_a a =
                 getAttributeValue Sample2.tuple_b a)
      (PartitionSchemeHeader.getPartitionAttributeIds
         (PartitionAwareInsertDestination.partition_scheme_header_
            (Sample.partitioned Sample.mod2 [[]; []])))).
  { simpl. apply Forall_cons_2; [reflexivity|]. apply Forall_nil_2. }
  split; [exact Hagree|].
  exact (@getPartitionId_reads_partition_attributes_only Sample.collaborators
           (Sample.partitioned Sample.mod2 [[]; []])
           Sample2.tuple_a Sample2.tuple_b Hagree).
Defined.

Lemma routing_stable_under_pool_calls_witness :
  Forall (λ c, PartitionAwareInsertDestination.is_setInputPartitionId c = false)
         Sample.some_calls
  ∧ ∃ d',
      PartitionAwareInsertDestination.calls
        (Sample.partitioned Sample.mod2 [[]; []]) Sample.some_calls = Some d'
      ∧ ∀ tuple,
          PartitionAwareInsertDestination.getPartitionId d' tuple =
          PartitionAwareInsertDestination.getPartitionId
            (Sample.partitioned Sample.mod2 [[]; []]) tuple.
Proof.
  assert (Hcs :
    Forall (λ c, PartitionAwareInsertDestination.is_setInputPartitionId c = false)
           Sample.some_calls).
  { simpl. repeat (apply Forall_cons_2; [reflexivity|]). apply Forall_nil_2. }
  split; [exact Hcs|]. eexists. split; [reflexivity|].
  exact (proj1 (@routing_stable_under_pool_calls Sample.collaborators
                  (Sample.partitioned Sample.mod2 [[]; []])
                  Sample.some_calls _ Hcs eq_refl)).
Defined.

Lemma no_members_empty (part_id : partition_id) (position : tuple_id) :
  ¬ PartitionAwareInsertDestination.member Sample.no_members part_id position.
Proof.
  intros (sequence & Hlookup & Hin).
  destruct part_id as [|[|part_id]]; simpl in Hlookup; simplify_eq;
    by apply not_elem_of_empty in Hin.
Qed.

Lemma three_rows_positions_NoDup : NoDup (fst <$> pending Sample.three_rows).
Proof. apply (bool_decide_unpack _). vm_compute. exact I. Qed.

Lemma setPartitionMembership_partitions_the_rows_witness :
  (∀ part_id position,
     ¬ PartitionAwareInsertDestination.member Sample.no_members part_id position)
  ∧ NoDup (fst <$> pending Sample.three_rows)
  ∧ ∃ pm',
      PartitionAwareInsertDestination.setPartitionMembership
        (Sample.partitioned Sample.mod2 [[]; []])
        Sample.no_members Sample.three_rows = Some pm'
      ∧ (∀ position,
           position ∈ (fst <$> pending Sample.three_rows) →
           ∃ part_id,
             PartitionAwareInsertDestination.member pm' part_id position
             ∧ ∀ q, PartitionAwareInsertDestination.member pm' q position →
                    q = part_id).
Proof.
  split; [exact no_members_empty|].
  split; [exact three_rows_positions_NoDup|].
  eexists. split; [reflexivity|].
  exact (proj1 (@setPartitionMembership_partitions_the_rows
                  Sample.collaborators
                  (Sample.partitioned Sample.mod2 [[]; []])
                  Sample.no_members Sample.three_rows _
                  no_members_empty three_rows_positions_NoDup eq_refl)).
Defined.

Lemma setPartitionMembership_only_adds_witness :
  ∃ pm',
    PartitionAwareInsertDestination.setPartitionMembership
      (Sample.partitioned Sample.mod2 [[]; []])
      Sample.no_members Sample.three_rows = Some pm'
    ∧ length pm' = length Sample.no_members
    ∧ ∀ part_id position,
        PartitionAwareInsertDestination.member Sample.no_members part_id position →
        PartitionAwareInsertDestination.member pm' part_id position.
Proof.
  eexists. split; [reflexivity|].
  destruct (@setPartitionMembership_only_adds Sample.collaborators
              (Sample.partitioned Sample.mod2 [[]; []])
              Sample.no_members Sample.three_rows _ eq_refl)
    as (Hlen & Hkept & _).
  split; [exact Hlen|exact Hkept].
Defined.

Lemma sendBlockFilledMessage_calls_bus_iff_serialises_witness :
  @SerializeToArray Sample2.unserialisable
    (@InsertDestination.DataPipelineMessage_of Sample2.unserialisable
       Sample2.base 5%N 0)
    (@ByteSize Sample2.unserialisable
       (@InsertDestination.DataPipelineMessage_of Sample2.unserialisable
          Sample2.base 5%N 0)) = None
  ∧ @InsertDestination.sendBlockFilledMessage Sample2.unserialisable
      Sample2.base 5%N 0 Sample2.world =
    Aborted (CheckFailed "proto.SerializeToArray(proto_bytes, proto_length)")
            Sample2.world.
Proof.
  split; [reflexivity|].
  exact (proj1 (proj1 (@sendBlockFilledMessage_calls_bus_iff_serialises
                         Sample2.unserialisable Sample2.base 5%N 0
                         Sample2.world))
           eq_refl).
Defined.
